(** * ShuffleNetV2: architecture assembly and tensor shape bookkeeping

    Shallow embedding of [neural/models/classification/shufflenetv2.py].

    Python integers are [Z] ([//] is [Z.div], [%] is [Z.modulo]; both are the
    floored versions, as in Python).  A call that can raise returns a
    [result].  The [torch.nn] layers the file instantiates are the
    constructors of [nn_Module]; what the file builds is a tree of them.  The
    [torch.Tensor] interface that [forward] and [channel_shuffle] go through
    is the class [TensorLike] (with [TorchOps] for the layers themselves); it
    has two instances, tensor shapes alone and dense row-major tensors. *)

From Stdlib Require Import ZArith List Bool Lia Permutation FinFun String.
Import ListNotations.
Local Open Scope Z_scope.

(** ** Exceptions *)

Inductive exn : Type :=
| ValueError
| RuntimeError
| IndexError
| ZeroDivisionError.

Inductive result (A : Type) : Type :=
| Ok (a : A)
| Raise (e : exn).

Arguments Ok {A} a.
Arguments Raise {A} e.

Definition bind {A B : Type} (r : result A) (k : A -> result B) : result B :=
  match r with
  | Ok a => k a
  | Raise e => Raise e
  end.

Notation "x <- r ;; k" := (bind r (fun x => k))
  (at level 61, r at next level, right associativity).

Definition raises {A : Type} (r : result A) : Prop :=
  match r with
  | Ok _ => False
  | Raise _ => True
  end.

Definition returns {A : Type} (r : result A) : Prop :=
  match r with
  | Ok _ => True
  | Raise _ => False
  end.

(** [check c e] raises [e] unless [c] holds. *)
Definition check (c : bool) (e : exn) : result unit :=
  if c then Ok tt else Raise e.

(** [l[i]] for a Python list and a non-negative literal index. *)
Definition getitem (l : list Z) (i : nat) : result Z :=
  match nth_error l i with
  | Some v => Ok v
  | None => Raise IndexError
  end.

(** ** The module tree *)

#[local] Unset Elimination Schemes.

Inductive nn_Module : Type :=
| Conv2d (in_channels out_channels kernel_size padding stride groups : Z)
         (bias : bool)
| BatchNorm2d (num_features : Z)
| ReLU (inplace : bool)
| MaxPool2d (kernel_size stride padding : Z)
| AdaptiveAvgPool2d (output_size : Z)
| Flatten
| Linear (in_features out_features : Z) (bias : bool)
| Sequential (children : list nn_Module)
| SequentialDict (named_children : list (string * nn_Module))
| InvertedResidualBlock (left : option nn_Module) (right : nn_Module).

#[local] Set Elimination Schemes.

(** *** Constructors of the [torch.nn] layers

    The argument checks of the library constructors: [Conv2d] wants a
    positive [groups] dividing both channel counts, and every parameter
    tensor ([torch.empty]) wants non-negative dimensions. *)

Definition nn_Conv2d (in_channels out_channels kernel_size padding stride
                      groups : Z) (bias : bool) : result nn_Module :=
  _ <- check (0 <? groups) ValueError ;;
  _ <- check (in_channels mod groups =? 0) ValueError ;;
  _ <- check (out_channels mod groups =? 0) ValueError ;;
  _ <- check ((0 <=? out_channels) && (0 <=? in_channels / groups)
              && (0 <=? kernel_size)) RuntimeError ;;
  Ok (Conv2d in_channels out_channels kernel_size padding stride groups bias).

Definition nn_BatchNorm2d (num_features : Z) : result nn_Module :=
  _ <- check (0 <=? num_features) RuntimeError ;;
  Ok (BatchNorm2d num_features).

Definition nn_Linear (in_features out_features : Z) : result nn_Module :=
  _ <- check ((0 <=? in_features) && (0 <=? out_features)) RuntimeError ;;
  Ok (Linear in_features out_features true).

(** *** The builders of the file *)

Definition ConvBlock (in_channels out_channels kernel_size padding stride : Z)
                     (use_relu : bool) : result nn_Module :=
  conv <- nn_Conv2d in_channels out_channels kernel_size padding stride 1
                    false ;;
  bn <- nn_BatchNorm2d out_channels ;;
  let layers := [conv; bn] in
  let layers := if use_relu then layers ++ [ReLU true] else layers in
  Ok (Sequential layers).

Definition DSConvBlock (in_channels out_channels kernel_size padding stride : Z)
                       (use_relu : bool) : result nn_Module :=
  dw <- nn_Conv2d in_channels in_channels kernel_size padding stride
                  in_channels false ;;
  bn1 <- nn_BatchNorm2d in_channels ;;
  pw <- nn_Conv2d in_channels out_channels 1 0 1 1 false ;;
  bn2 <- nn_BatchNorm2d out_channels ;;
  let layers := [dw; bn1; pw; bn2] in
  let layers := if use_relu then layers ++ [ReLU true] else layers in
  Ok (Sequential layers).

(** [InvertedResidualBlock.__init__] *)
Definition InvertedResidualBlock_init (in_channels out_channels stride : Z)
  : result nn_Module :=
  let branch_channels := out_channels / 2 in
  left <- (if 1 <? stride
           then l <- DSConvBlock in_channels branch_channels 3 1 stride true ;;
                Ok (Some l)
           else Ok None) ;;
  c <- ConvBlock (if 1 <? stride then in_channels else branch_channels)
                 branch_channels 1 0 1 true ;;
  d <- DSConvBlock branch_channels branch_channels 3 1 stride true ;;
  Ok (InvertedResidualBlock left (Sequential [c; d])).

(** The loop [for _ in range(1, depth): layers += [...]] of [make_layer],
    [n] iterations left. *)
Fixpoint make_layer_loop (n : nat) (out_channels : Z) (layers : list nn_Module)
  : result (list nn_Module) :=
  match n with
  | O => Ok layers
  | S n' =>
      b <- InvertedResidualBlock_init out_channels out_channels 1 ;;
      make_layer_loop n' out_channels (layers ++ [b])
  end.

Definition make_layer (in_channels out_channels depth stride : Z)
  : result nn_Module :=
  b <- InvertedResidualBlock_init in_channels out_channels stride ;;
  layers <- make_layer_loop (Z.to_nat (depth - 1)) out_channels [b] ;;
  Ok (Sequential layers).

(** [ShuffleNetV2.__init__] *)
Definition ShuffleNetV2 (in_channels num_classes : Z)
                        (block_depth block_channels : list Z)
  : result nn_Module :=
  c0 <- getitem block_channels 0 ;;
  stem <- ConvBlock in_channels c0 3 1 2 true ;;
  let head := Sequential [stem; MaxPool2d 3 2 1] in
  c0 <- getitem block_channels 0 ;;
  c1 <- getitem block_channels 1 ;;
  d0 <- getitem block_depth 0 ;;
  layer1 <- make_layer c0 c1 d0 2 ;;
  c1 <- getitem block_channels 1 ;;
  c2 <- getitem block_channels 2 ;;
  d1 <- getitem block_depth 1 ;;
  layer2 <- make_layer c1 c2 d1 2 ;;
  c2 <- getitem block_channels 2 ;;
  c3 <- getitem block_channels 3 ;;
  d2 <- getitem block_depth 2 ;;
  layer3 <- make_layer c2 c3 d2 2 ;;
  c3 <- getitem block_channels 3 ;;
  c4 <- getitem block_channels 4 ;;
  tail <- ConvBlock c3 c4 1 0 1 true ;;
  let features := SequentialDict
    [("head", head); ("layer1", layer1); ("layer2", layer2);
     ("layer3", layer3); ("tail", tail)]%string in
  c4 <- getitem block_channels 4 ;;
  fc <- nn_Linear c4 num_classes ;;
  let classifier := Sequential [AdaptiveAvgPool2d 1; Flatten; fc] in
  Ok (SequentialDict
        [("features", features); ("classifier", classifier)]%string).

Definition shufflenetv2_x0_5 (in_channels num_classes : Z) : result nn_Module :=
  ShuffleNetV2 in_channels num_classes [4; 8; 4] [24; 48; 96; 192; 1024].

Definition shufflenetv2_x1_0 (in_channels num_classes : Z) : result nn_Module :=
  ShuffleNetV2 in_channels num_classes [4; 8; 4] [24; 116; 232; 464; 1024].

Definition shufflenetv2_x1_5 (in_channels num_classes : Z) : result nn_Module :=
  ShuffleNetV2 in_channels num_classes [4; 8; 4] [24; 176; 352; 704; 1024].

Definition shufflenetv2_x2_0 (in_channels num_classes : Z) : result nn_Module :=
  ShuffleNetV2 in_channels num_classes [4; 8; 4] [24; 244; 488; 976; 2048].

(** ** The tensor interface *)

Definition numel (s : list Z) : Z := fold_right Z.mul 1 s.

Fixpoint update {X : Type} (l : list X) (i : nat) (v : X) : list X :=
  match l, i with
  | [], _ => []
  | _ :: t, O => v :: t
  | h :: t, S i' => h :: update t i' v
  end.

(** Exchange the entries at positions [i] and [j]. *)
Definition swap_at {X : Type} (i j : nat) (l : list X) : list X :=
  match nth_error l i, nth_error l j with
  | Some a, Some b => update (update l i b) j a
  | _, _ => l
  end.

(** What [channel_shuffle] uses of a tensor. *)
Class TensorLike (T : Type) : Type := {
  shape : T -> list Z;
  reshape : T -> list Z -> result T;
  transpose : T -> nat -> nat -> result T
}.

(** What [forward] uses besides: [Tensor.chunk], [torch.cat] and the layers
    of the library. *)
Class TorchOps (T : Type) : Type := {
  chunk : T -> Z -> nat -> result (list T);
  cat : list T -> nat -> result T;
  conv2d : T -> Z -> Z -> Z -> Z -> Z -> Z -> bool -> result T;
  batch_norm : T -> Z -> result T;
  relu : T -> result T;
  max_pool2d : T -> Z -> Z -> Z -> result T;
  adaptive_avg_pool2d : T -> Z -> result T;
  flatten : T -> result T;
  linear : T -> Z -> Z -> bool -> result T
}.

Section Forward.
Context {T : Type} `{TensorLike T} `{TorchOps T}.

Definition channel_shuffle (x : T) (groups : Z) : result T :=
  match shape x with
  | [batch_size; channels; height; width] =>
      _ <- check (negb (groups =? 0)) ZeroDivisionError ;;
      y <- reshape x [batch_size; groups; channels / groups; height; width] ;;
      z <- transpose y 1 2 ;;
      reshape z [batch_size; channels; height; width]
  | _ => Raise ValueError
  end.

(** [nn.Sequential.forward]: the children in order. *)
Definition run_seq (f : nn_Module -> T -> result T)
  : list nn_Module -> T -> result T :=
  fix go (ms : list nn_Module) (x : T) : result T :=
    match ms with
    | [] => Ok x
    | m :: ms' => y <- f m x ;; go ms' y
    end.

Definition run_named (f : nn_Module -> T -> result T)
  : list (string * nn_Module) -> T -> result T :=
  fix go (ms : list (string * nn_Module)) (x : T) : result T :=
    match ms with
    | [] => Ok x
    | (_, m) :: ms' => y <- f m x ;; go ms' y
    end.

Fixpoint forward (m : nn_Module) (input : T) : result T :=
  match m with
  | Conv2d i o k p s g b => conv2d input i o k p s g b
  | BatchNorm2d n => batch_norm input n
  | ReLU _ => relu input
  | MaxPool2d k s p => max_pool2d input k s p
  | AdaptiveAvgPool2d o => adaptive_avg_pool2d input o
  | Flatten => flatten input
  | Linear i o b => linear input i o b
  | Sequential ms => run_seq forward ms input
  | SequentialDict ms => run_named forward ms input
  | InvertedResidualBlock self_left self_right =>
      lr <- match self_left with
            | None =>
                parts <- chunk input 2 1 ;;
                match parts with
                | [left_; right_] =>
                    right_ <- forward self_right right_ ;;
                    Ok (left_, right_)
                | _ => Raise ValueError
                end
            | Some self_left =>
                left_ <- forward self_left input ;;
                right_ <- forward self_right input ;;
                Ok (left_, right_)
            end ;;
      x <- cat [fst lr; snd lr] 1 ;;
      channel_shuffle x 2
  end.
End Forward.

(** ** First instance: shapes alone

    A [meta] tensor carries its shape and no data (as on the library's
    "meta" device).  The layers act on it by the shape rules of their
    documentation, with dilation 1 and [ceil_mode] off. *)

Record meta : Type := Meta { dims : list Z }.

(** [Tensor.reshape] to explicit extents.  A negative extent is refused:
    [channel_shuffle] passes one only for negative [groups], where the
    library refuses the call as well (no extent can be inferred there). *)
Definition meta_reshape (x : meta) (s : list Z) : result meta :=
  _ <- check (forallb (fun d => 0 <=? d) s) RuntimeError ;;
  _ <- check (numel s =? numel (dims x)) RuntimeError ;;
  Ok (Meta s).

Definition meta_transpose (x : meta) (d0 d1 : nat) : result meta :=
  _ <- check ((d0 <? List.length (dims x))%nat && (d1 <? List.length (dims x))%nat)
             IndexError ;;
  Ok (Meta (swap_at d0 d1 (dims x))).

#[export] Instance meta_TensorLike : TensorLike meta := {
  shape := dims;
  reshape := meta_reshape;
  transpose := meta_transpose
}.

(** [Tensor.chunk]: pieces of [ceil(size / chunks)] entries along [dim], the
    last one with what is left. *)
Definition meta_chunk (x : meta) (chunks : Z) (dim : nat)
  : result (list meta) :=
  match nth_error (dims x) dim with
  | None => Raise IndexError
  | Some dim_size =>
      _ <- check (0 <? chunks) RuntimeError ;;
      let split_size := (dim_size + chunks - 1) / chunks in
      let sizes :=
        if split_size =? 0 then repeat 0 (Z.to_nat chunks)
        else
          let n := Z.max ((dim_size + split_size - 1) / split_size) 1 in
          repeat split_size (Z.to_nat (n - 1))
            ++ [split_size - (split_size * n - dim_size)] in
      Ok (map (fun sz => Meta (update (dims x) dim sz)) sizes)
  end.

(** [torch.cat]: the shapes agree off [dim]; the sizes along [dim] add up. *)
Definition meta_cat (xs : list meta) (dim : nat) : result meta :=
  match xs with
  | [] => Raise RuntimeError
  | x0 :: rest =>
      match nth_error (dims x0) dim with
      | None => Raise IndexError
      | Some _ =>
          _ <- check (forallb
                        (fun y =>
                           if list_eq_dec Z.eq_dec (update (dims y) dim 0)
                                                   (update (dims x0) dim 0)
                           then true else false) rest) RuntimeError ;;
          Ok (Meta (update (dims x0) dim
                      (fold_right Z.add 0
                         (map (fun y => nth dim (dims y) 0) xs))))
      end
  end.

(** Output extent of a sliding window: [floor((n + 2p - k) / s) + 1]. *)
Definition window_out (n k p s : Z) : Z := (n + 2 * p - k) / s + 1.

(** [nn.Conv2d.forward] on a batched [(B, C, H, W)] or unbatched
    [(C, H, W)] input: [C] is [in_channels], neither the input planes nor
    the weight are empty, and the kernel fits the padded input. *)
Definition meta_conv2d (x : meta) (i o k p s g : Z) (b : bool)
  : result meta :=
  let checked (C H W : Z) (out : meta) : result meta :=
    _ <- check (C =? i) RuntimeError ;;
    _ <- check ((0 <? i) && (0 <? o) && (0 <? H) && (0 <? W)) RuntimeError ;;
    _ <- check ((0 <? k) && (0 <=? p) && (0 <? s)) RuntimeError ;;
    _ <- check ((k <=? H + 2 * p) && (k <=? W + 2 * p)) RuntimeError ;;
    Ok out in
  match dims x with
  | [B; C; H; W] =>
      checked C H W (Meta [B; o; window_out H k p s; window_out W k p s])
  | [C; H; W] =>
      checked C H W (Meta [o; window_out H k p s; window_out W k p s])
  | _ => Raise RuntimeError
  end.

(** [nn.BatchNorm2d.forward] of a layer as built, that is in training mode
    (the file never calls [eval]): the input is 4-D, it holds more than one
    value per channel ([B * H * W] is not 1), and it has [num_features]
    channels. *)
Definition meta_batch_norm (x : meta) (n : Z) : result meta :=
  match dims x with
  | [B; C; H; W] =>
      _ <- check (negb (B * H * W =? 1)) ValueError ;;
      _ <- check (C =? n) RuntimeError ;;
      Ok x
  | _ => Raise ValueError
  end.

Definition meta_max_pool2d (x : meta) (k s p : Z) : result meta :=
  let checked (H W : Z) (out : meta) : result meta :=
    _ <- check ((0 <? k) && (0 <? s) && (0 <=? p) && (2 * p <=? k))
               RuntimeError ;;
    _ <- check ((1 <=? window_out H k p s) && (1 <=? window_out W k p s))
               RuntimeError ;;
    Ok out in
  match dims x with
  | [B; C; H; W] =>
      checked H W (Meta [B; C; window_out H k p s; window_out W k p s])
  | [C; H; W] =>
      checked H W (Meta [C; window_out H k p s; window_out W k p s])
  | _ => Raise RuntimeError
  end.

Definition meta_adaptive_avg_pool2d (x : meta) (o : Z) : result meta :=
  let checked (C H W : Z) (out : meta) : result meta :=
    _ <- check ((0 <? C) && (0 <? H) && (0 <? W)) RuntimeError ;;
    Ok out in
  match dims x with
  | [B; C; H; W] => checked C H W (Meta [B; C; o; o])
  | [C; H; W] => checked C H W (Meta [C; o; o])
  | _ => Raise RuntimeError
  end.

(** [nn.Flatten()]: every axis after the first one is merged. *)
Definition meta_flatten (x : meta) : result meta :=
  match dims x with
  | B :: d :: rest => Ok (Meta [B; numel (d :: rest)])
  | _ => Raise IndexError
  end.

Definition meta_linear (x : meta) (i o : Z) (b : bool) : result meta :=
  match rev (dims x) with
  | last :: front =>
      _ <- check (last =? i) RuntimeError ;;
      Ok (Meta (rev (o :: front)))
  | [] => Raise RuntimeError
  end.

#[export] Instance meta_TorchOps : TorchOps meta := {
  chunk := meta_chunk;
  cat := meta_cat;
  conv2d := meta_conv2d;
  batch_norm := meta_batch_norm;
  relu := fun x => Ok x;
  max_pool2d := meta_max_pool2d;
  adaptive_avg_pool2d := meta_adaptive_avg_pool2d;
  flatten := meta_flatten;
  linear := meta_linear
}.

(** Build, then evaluate on meta tensors. *)
Definition run (net : result nn_Module) (x : meta) : result meta :=
  m <- net ;; forward m x.

(** ** Second instance: dense tensors

    A tensor with its entries in row-major (contiguous) order.  [transpose]
    is a view in the library and the [reshape] after it copies the entries in
    the logical order of that view; here [transpose] lays them out in that
    order at once. *)

(** Multi-index of the flat position [k] in a tensor of shape [s]. *)
Fixpoint unravel (s : list Z) (k : Z) : list Z :=
  match s with
  | [] => []
  | _ :: rest => k / numel rest :: unravel rest (k mod numel rest)
  end.

(** Flat position of a multi-index. *)
Fixpoint ravel (s idx : list Z) : Z :=
  match s, idx with
  | _ :: rest, i :: idx' => i * numel rest + ravel rest idx'
  | _, _ => 0
  end.

Definition zrange (n : Z) : list Z := map Z.of_nat (seq 0 (Z.to_nat n)).

Record tensor (A : Type) : Type := Tensor {
  t_shape : list Z;
  t_data : list A
}.

Arguments Tensor {A} t_shape t_data.
Arguments t_shape {A} t.
Arguments t_data {A} t.

Section Dense.
Context {A : Type}.

(** Non-negative extents, one entry per position. *)
Definition well_formed (x : tensor A) : bool :=
  forallb (fun d => 0 <=? d) (t_shape x)
  && (Z.of_nat (List.length (t_data x)) =? numel (t_shape x)).

Definition dense_reshape (x : tensor A) (s : list Z) : result (tensor A) :=
  _ <- check (forallb (fun d => 0 <=? d) s) RuntimeError ;;
  _ <- check (numel s =? numel (t_shape x)) RuntimeError ;;
  Ok (Tensor s (t_data x)).

Definition dense_transpose (x : tensor A) (d0 d1 : nat)
  : result (tensor A) :=
  _ <- check ((d0 <? List.length (t_shape x))%nat
              && (d1 <? List.length (t_shape x))%nat) IndexError ;;
  let s := t_shape x in
  let s' := swap_at d0 d1 s in
  Ok (Tensor s'
        match t_data x with
        | [] => []
        | d :: _ =>
            map (fun k =>
                   nth (Z.to_nat (ravel s (swap_at d0 d1 (unravel s' k))))
                       (t_data x) d)
                (zrange (numel s'))
        end).

#[export] Instance dense_TensorLike : TensorLike (tensor A) := {
  shape := t_shape;
  reshape := dense_reshape;
  transpose := dense_transpose
}.

(** The entry at a multi-index. *)
Definition get (x : tensor A) (idx : list Z) : option A :=
  nth_error (t_data x) (Z.to_nat (ravel (t_shape x) idx)).
End Dense.

(** [idx] addresses an entry of a tensor of shape [s]. *)
Definition in_bounds (s idx : list Z) : Prop :=
  Forall2 (fun d i => 0 <= i < d) s idx.

(** ** The composition the specification describes

    These follow the words of the specification (sections 4.1 to 4.6); the
    theorems below compare them with what the builders return. *)

Module Spec.

Definition activation (enabled : bool) : list nn_Module :=
  if enabled then [ReLU true] else [].

Definition ConvBlock (Cin Cout k p s : Z) (act : bool) : nn_Module :=
  Sequential ([Conv2d Cin Cout k p s 1 false; BatchNorm2d Cout]
                ++ activation act).

Definition DepthwiseSeparableBlock (Cin Cout k p s : Z) (act : bool)
  : nn_Module :=
  Sequential ([Conv2d Cin Cin k p s Cin false; BatchNorm2d Cin;
               Conv2d Cin Cout 1 0 1 1 false; BatchNorm2d Cout]
                ++ activation act).

(** Stride 1: no left branch (the left half passes as it is). *)
Definition SplitUnit (C : Z) : nn_Module :=
  InvertedResidualBlock None
    (Sequential [ConvBlock (C / 2) (C / 2) 1 0 1 true;
                 DepthwiseSeparableBlock (C / 2) (C / 2) 3 1 1 true]).

(** Stride above 1: both branches see the whole input. *)
Definition FullInputUnit (Cin Cout s : Z) : nn_Module :=
  InvertedResidualBlock
    (Some (DepthwiseSeparableBlock Cin (Cout / 2) 3 1 s true))
    (Sequential [ConvBlock Cin (Cout / 2) 1 0 1 true;
                 DepthwiseSeparableBlock (Cout / 2) (Cout / 2) 3 1 s true]).

Definition Stage (Cin Cout d : Z) : nn_Module :=
  Sequential (FullInputUnit Cin Cout 2
                :: repeat (SplitUnit Cout) (Z.to_nat (d - 1))).

Definition Features (in_channels d1 d2 d3 c0 c1 c2 c3 c4 : Z) : nn_Module :=
  SequentialDict
    [("head", Sequential [ConvBlock in_channels c0 3 1 2 true;
                          MaxPool2d 3 2 1]);
     ("layer1", Stage c0 c1 d1);
     ("layer2", Stage c1 c2 d2);
     ("layer3", Stage c2 c3 d3);
     ("tail", ConvBlock c3 c4 1 0 1 true)]%string.

Definition Classifier (c4 num_classes : Z) : nn_Module :=
  Sequential [AdaptiveAvgPool2d 1; Flatten; Linear c4 num_classes true].

Definition Network (in_channels num_classes d1 d2 d3 c0 c1 c2 c3 c4 : Z)
  : nn_Module :=
  SequentialDict
    [("features", Features in_channels d1 d2 d3 c0 c1 c2 c3 c4);
     ("classifier", Classifier c4 num_classes)]%string.

End Spec.

(** ** Auxiliary notions of the statements *)

(** Extent after one stride-2 window of size 3 with padding 1. *)
Definition halve (n : Z) : Z := (n + 1) / 2.

(** Where channel [c] of the output comes from: the entry [(i, j)] of the
    [(g, C / g)] view lands at [(j, i)] of the [(C / g, g)] view. *)
Definition shuffle_source (C g c : Z) : Z := (c mod g) * (C / g) + c / g.

(** The configurations the specification calls invalid: a depth below 1, an
    odd width among [c1], [c2], [c3], or a width that is not positive. *)
Definition invalid_config (block_depth block_channels : list Z) : Prop :=
  Exists (fun d => d < 1) block_depth
  \/ (exists n c, (1 <= n <= 3)%nat /\ nth_error block_channels n = Some c
                  /\ c mod 2 <> 0)
  \/ Exists (fun c => c <= 0) block_channels.

(** ** Construction *)

Lemma check_true (c : bool) (e : exn) : c = true -> check c e = Ok tt.
Proof. intros ->; reflexivity. Qed.

Lemma check_false (c : bool) (e : exn) : c = false -> check c e = Raise e.
Proof. intros ->; reflexivity. Qed.

Ltac bool_goal :=
  repeat (rewrite ?andb_true_iff, ?Z.ltb_lt, ?Z.leb_le, ?Z.eqb_eq;
          try split);
  try lia.

(** Discharge the next argument check of the goal. *)
Ltac pass_check :=
  match goal with
  | |- context [check ?c ?e] =>
      rewrite (check_true c e) by bool_goal; cbn [bind]
  end.

Lemma nn_Conv2d_ok (i o k p s g : Z) (b : bool) :
  0 < g -> i mod g = 0 -> o mod g = 0 -> 0 <= i -> 0 <= o -> 0 <= k ->
  nn_Conv2d i o k p s g b = Ok (Conv2d i o k p s g b).
Proof.
  intros Hg Hi Ho Hi0 Ho0 Hk. unfold nn_Conv2d.
  assert (0 <= i / g) by (apply Z.div_pos; lia).
  repeat pass_check. reflexivity.
Qed.

Lemma nn_BatchNorm2d_ok (n : Z) :
  0 <= n -> nn_BatchNorm2d n = Ok (BatchNorm2d n).
Proof. intros Hn. unfold nn_BatchNorm2d. pass_check. reflexivity. Qed.

Lemma ConvBlock_ok (i o k p s : Z) (act : bool) :
  0 <= i -> 0 <= o -> 0 <= k ->
  ConvBlock i o k p s act = Ok (Spec.ConvBlock i o k p s act).
Proof.
  intros Hi Ho Hk. unfold ConvBlock.
  rewrite nn_Conv2d_ok by (rewrite ?Z.mod_1_r; lia).
  rewrite nn_BatchNorm2d_ok by lia.
  destruct act; reflexivity.
Qed.

Lemma DSConvBlock_ok (i o k p s : Z) (act : bool) :
  0 < i -> 0 <= o -> 0 <= k ->
  DSConvBlock i o k p s act = Ok (Spec.DepthwiseSeparableBlock i o k p s act).
Proof.
  intros Hi Ho Hk. unfold DSConvBlock.
  rewrite nn_Conv2d_ok by (rewrite ?Z.mod_same; lia).
  rewrite nn_BatchNorm2d_ok by lia.
  rewrite nn_Conv2d_ok by (rewrite ?Z.mod_1_r; lia).
  rewrite nn_BatchNorm2d_ok by lia.
  destruct act; reflexivity.
Qed.

Lemma half_pos (c : Z) : 2 <= c -> 0 < c / 2.
Proof. intros Hc. apply Z.div_str_pos. lia. Qed.

Lemma split_unit_ok (i C : Z) :
  2 <= C ->
  InvertedResidualBlock_init i C 1 = Ok (Spec.SplitUnit C).
Proof.
  intros HC. pose proof (half_pos C HC) as Hh.
  unfold InvertedResidualBlock_init.
  change (1 <? 1) with false. cbv zeta iota. cbn [bind].
  rewrite ConvBlock_ok by lia. rewrite DSConvBlock_ok by lia.
  reflexivity.
Qed.

Lemma full_unit_ok (i o s : Z) :
  1 < s -> 0 < i -> 2 <= o ->
  InvertedResidualBlock_init i o s = Ok (Spec.FullInputUnit i o s).
Proof.
  intros Hs Hi Ho. pose proof (half_pos o Ho) as Hh.
  unfold InvertedResidualBlock_init.
  replace (1 <? s) with true by (symmetry; apply Z.ltb_lt; lia).
  cbv zeta iota.
  rewrite !DSConvBlock_ok by lia. cbn [bind]. rewrite ConvBlock_ok by lia.
  reflexivity.
Qed.

Lemma make_layer_loop_ok (n : nat) (o : Z) (layers : list nn_Module) :
  2 <= o ->
  make_layer_loop n o layers = Ok (layers ++ repeat (Spec.SplitUnit o) n).
Proof.
  intros Ho. revert layers.
  induction n as [|n IH]; intros layers; cbn [make_layer_loop repeat].
  - now rewrite app_nil_r.
  - rewrite split_unit_ok by lia. cbn [bind].
    rewrite IH, <- app_assoc. reflexivity.
Qed.

Lemma make_layer_ok (i o d : Z) :
  0 < i -> 2 <= o ->
  make_layer i o d 2 = Ok (Spec.Stage i o d).
Proof.
  intros Hi Ho. unfold make_layer.
  rewrite full_unit_ok by lia. cbn [bind].
  rewrite make_layer_loop_ok by lia. reflexivity.
Qed.

Lemma ShuffleNetV2_ok (i nc d1 d2 d3 c0 c1 c2 c3 c4 : Z) :
  0 <= i -> 0 <= nc ->
  0 < c0 -> 2 <= c1 -> 2 <= c2 -> 2 <= c3 -> 0 <= c4 ->
  ShuffleNetV2 i nc [d1; d2; d3] [c0; c1; c2; c3; c4]
  = Ok (Spec.Network i nc d1 d2 d3 c0 c1 c2 c3 c4).
Proof.
  intros. unfold ShuffleNetV2. cbn [getitem nth_error bind].
  rewrite !ConvBlock_ok by lia. cbn [bind].
  rewrite !make_layer_ok by lia. cbn [bind].
  unfold nn_Linear. pass_check. reflexivity.
Qed.

(** ** Evaluation on shapes *)

Section SequentialEquations.
Context {T : Type} `{TensorLike T} `{TorchOps T}.

Lemma forward_Sequential_nil (x : T) : forward (Sequential []) x = Ok x.
Proof. reflexivity. Qed.

Lemma forward_Sequential_cons (m : nn_Module) (ms : list nn_Module) (x : T) :
  forward (Sequential (m :: ms)) x
  = (y <- forward m x ;; forward (Sequential ms) y).
Proof. reflexivity. Qed.

Lemma forward_SequentialDict_nil (x : T) :
  forward (SequentialDict []) x = Ok x.
Proof. reflexivity. Qed.

Lemma forward_SequentialDict_cons (n : string) (m : nn_Module)
      (ms : list (string * nn_Module)) (x : T) :
  forward (SequentialDict ((n, m) :: ms)) x
  = (y <- forward m x ;; forward (SequentialDict ms) y).
Proof. reflexivity. Qed.

(** [InvertedResidualBlock.forward], branch [self.left is None]. *)
Lemma forward_split (r : nn_Module) (x : T) :
  forward (InvertedResidualBlock None r) x
  = (parts <- chunk x 2 1 ;;
     match parts with
     | [left_; right_] =>
         right_ <- forward r right_ ;;
         y <- cat [left_; right_] 1 ;;
         channel_shuffle y 2
     | _ => Raise ValueError
     end).
Proof.
  cbn [forward]. destruct (chunk x 2 1) as [parts|e]; [|reflexivity].
  destruct parts as [|a [|b [|c parts]]]; try reflexivity.
  cbn [bind]. destruct (forward r b); reflexivity.
Qed.

(** [InvertedResidualBlock.forward], the other branch. *)
Lemma forward_full (l r : nn_Module) (x : T) :
  forward (InvertedResidualBlock (Some l) r) x
  = (left_ <- forward l x ;;
     right_ <- forward r x ;;
     y <- cat [left_; right_] 1 ;;
     channel_shuffle y 2).
Proof.
  cbn [forward]. destruct (forward l x); [|reflexivity].
  cbn [bind]. destruct (forward r x); reflexivity.
Qed.
End SequentialEquations.

Ltac seq_step :=
  cbn [bind];
  repeat (first [ rewrite forward_Sequential_cons
                | rewrite forward_Sequential_nil
                | rewrite forward_SequentialDict_cons
                | rewrite forward_SequentialDict_nil ];
          cbn [bind]).

Lemma window_out_pos (n k p s : Z) :
  0 < s -> k <= n + 2 * p -> 1 <= window_out n k p s.
Proof.
  intros Hs Hk. unfold window_out.
  assert (0 <= (n + 2 * p - k) / s) by (apply Z.div_pos; lia). lia.
Qed.

Lemma window_out_pointwise (n : Z) : window_out n 1 0 1 = n.
Proof. unfold window_out. rewrite Z.div_1_r. lia. Qed.

Lemma forward_Conv2d_meta (i o k p s g B H W : Z) (b : bool) :
  0 < i -> 0 < o -> 1 <= H -> 1 <= W ->
  0 < k -> 0 <= p -> 0 < s -> k <= H + 2 * p -> k <= W + 2 * p ->
  forward (Conv2d i o k p s g b) (Meta [B; i; H; W])
  = Ok (Meta [B; o; window_out H k p s; window_out W k p s]).
Proof.
  intros. cbn [forward conv2d meta_TorchOps]. unfold meta_conv2d. cbn [dims].
  cbv zeta beta. repeat pass_check. reflexivity.
Qed.

Lemma forward_BatchNorm2d_meta (n B H W : Z) :
  B * H * W <> 1 ->
  forward (BatchNorm2d n) (Meta [B; n; H; W]) = Ok (Meta [B; n; H; W]).
Proof.
  intros Hv.
  cbn [forward batch_norm meta_TorchOps]. unfold meta_batch_norm. cbn [dims].
  rewrite check_true by (apply negb_true_iff, Z.eqb_neq; exact Hv).
  cbn [bind]. pass_check. reflexivity.
Qed.

(** A normalization over a single value per channel is refused. *)
Lemma forward_BatchNorm2d_single (n C : Z) :
  forward (BatchNorm2d n) (Meta [1; C; 1; 1]) = Raise ValueError.
Proof. reflexivity. Qed.

(** More values per channel on a larger extent. *)
Lemma several_values_mono (B h w h' w' : Z) :
  1 <= B -> 1 <= h' <= h -> 1 <= w' <= w ->
  B * h' * w' <> 1 -> B * h * w <> 1.
Proof.
  intros HB Hh Hw Hv.
  assert (h' * w' <= h * w) by (apply Z.mul_le_mono_nonneg; lia).
  assert (1 <= h' * w') by nia.
  assert (B * (h' * w') <= B * (h * w))
    by (apply Z.mul_le_mono_nonneg_l; lia).
  assert (1 <= B * (h' * w')) by nia.
  rewrite <- !Z.mul_assoc in *. lia.
Qed.

Lemma window_out_le (n s : Z) : 0 < s -> 1 <= n -> window_out n 3 1 s <= n.
Proof.
  intros Hs Hn. unfold window_out.
  assert ((n + 2 * 1 - 3) / s <= n - 1); [|lia].
  apply Z.div_le_upper_bound; nia.
Qed.

Lemma forward_activation_meta (act : bool) (x : meta) :
  forward (Sequential (Spec.activation act)) x = Ok x.
Proof. destruct act; reflexivity. Qed.

Lemma forward_ConvBlock_meta (i o k p s B H W : Z) (act : bool) :
  0 < i -> 0 < o -> 1 <= H -> 1 <= W ->
  0 < k -> 0 <= p -> 0 < s -> k <= H + 2 * p -> k <= W + 2 * p ->
  B * window_out H k p s * window_out W k p s <> 1 ->
  forward (Spec.ConvBlock i o k p s act) (Meta [B; i; H; W])
  = Ok (Meta [B; o; window_out H k p s; window_out W k p s]).
Proof.
  intros. unfold Spec.ConvBlock. cbn [app]. seq_step.
  rewrite forward_Conv2d_meta by lia. cbn [bind]. seq_step.
  rewrite forward_BatchNorm2d_meta by assumption. cbn [bind].
  apply forward_activation_meta.
Qed.

Lemma forward_DepthwiseSeparableBlock_meta (i o k p s B H W : Z) (act : bool) :
  0 < i -> 0 < o -> 1 <= H -> 1 <= W ->
  0 < k -> 0 <= p -> 0 < s -> k <= H + 2 * p -> k <= W + 2 * p ->
  B * window_out H k p s * window_out W k p s <> 1 ->
  forward (Spec.DepthwiseSeparableBlock i o k p s act) (Meta [B; i; H; W])
  = Ok (Meta [B; o; window_out H k p s; window_out W k p s]).
Proof.
  intros. unfold Spec.DepthwiseSeparableBlock. cbn [app]. seq_step.
  pose proof (window_out_pos H k p s ltac:(lia) ltac:(lia)).
  pose proof (window_out_pos W k p s ltac:(lia) ltac:(lia)).
  rewrite forward_Conv2d_meta by lia. cbn [bind]. seq_step.
  rewrite forward_BatchNorm2d_meta by assumption. cbn [bind]. seq_step.
  rewrite forward_Conv2d_meta by lia. cbn [bind]. seq_step.
  rewrite !window_out_pointwise.
  rewrite forward_BatchNorm2d_meta by assumption. cbn [bind].
  apply forward_activation_meta.
Qed.

(** On shapes the shuffle is the identity as soon as [groups] divides the
    channel count. *)
Lemma channel_shuffle_meta (g B C H W : Z) :
  0 < g -> C mod g = 0 -> 0 <= B -> 0 <= C -> 0 <= H -> 0 <= W ->
  channel_shuffle (Meta [B; C; H; W]) g = Ok (Meta [B; C; H; W]).
Proof.
  intros Hg Hm HB HC HH HW.
  assert (HCg : C = g * (C / g)) by (apply Z.div_exact; lia).
  assert (0 <= C / g) by (apply Z.div_pos; lia).
  unfold channel_shuffle. cbn [shape meta_TensorLike dims].
  rewrite check_true by (apply negb_true_iff, Z.eqb_neq; lia). cbn [bind].
  cbn [reshape transpose meta_TensorLike].
  unfold meta_reshape at 1. cbn [dims forallb numel fold_right].
  rewrite check_true by bool_goal. cbn [bind].
  rewrite check_true by (apply Z.eqb_eq; rewrite HCg at 2; ring). cbn [bind].
  unfold meta_transpose. cbn [dims List.length Nat.ltb Nat.leb andb check bind].
  unfold swap_at. cbn [nth_error update].
  unfold meta_reshape. cbn [dims forallb numel fold_right].
  rewrite check_true by bool_goal. cbn [bind].
  rewrite check_true by (apply Z.eqb_eq; rewrite HCg at 1; ring).
  reflexivity.
Qed.

Lemma meta_chunk_even (B C H W : Z) :
  2 <= C -> C mod 2 = 0 ->
  chunk (Meta [B; C; H; W]) 2 1
  = Ok [Meta [B; C / 2; H; W]; Meta [B; C / 2; H; W]].
Proof.
  intros HC Hm.
  assert (HC2 : C = 2 * (C / 2)) by (apply Z.div_exact; lia).
  pose proof (half_pos C HC) as Hh.
  cbn [chunk meta_TorchOps]. unfold meta_chunk. cbn [dims nth_error].
  change (check (0 <? 2) RuntimeError) with (Ok tt). cbn [bind].
  assert (Hs : (C + 2 - 1) / 2 = C / 2).
  { symmetry. apply (Z.div_unique _ _ _ 1); lia. }
  rewrite Hs.
  replace (C / 2 =? 0) with false by (symmetry; apply Z.eqb_neq; lia).
  assert (Hn : (C + C / 2 - 1) / (C / 2) = 2).
  { symmetry. apply (Z.div_unique _ _ _ (C / 2 - 1)); lia. }
  rewrite Hn. change (Z.to_nat (Z.max 2 1 - 1)) with 1%nat.
  cbn [repeat app map update]. change (Z.max 2 1) with 2.
  replace (C / 2 - (C / 2 * 2 - C)) with (C / 2) by lia.
  reflexivity.
Qed.

Lemma meta_cat_channels (B a b H W : Z) :
  cat [Meta [B; a; H; W]; Meta [B; b; H; W]] 1 = Ok (Meta [B; a + b; H; W]).
Proof.
  cbn [cat meta_TorchOps]. unfold meta_cat. cbn [dims nth_error update forallb].
  destruct (list_eq_dec Z.eq_dec [B; 0; H; W] [B; 0; H; W]) as [_|Hne];
    [|congruence].
  cbn [andb check bind map nth fold_right].
  now rewrite Z.add_0_r.
Qed.

(** The stride-1 unit keeps the shape. *)
Lemma forward_SplitUnit_meta (B C H W : Z) :
  2 <= C -> C mod 2 = 0 -> 1 <= B -> 1 <= H -> 1 <= W -> B * H * W <> 1 ->
  forward (Spec.SplitUnit C) (Meta [B; C; H; W]) = Ok (Meta [B; C; H; W]).
Proof.
  intros HC Hm HB HH HW Hv.
  assert (HC2 : C = 2 * (C / 2)) by (apply Z.div_exact; lia).
  assert (H1 : window_out H 3 1 1 = H)
    by (unfold window_out; rewrite Z.div_1_r; lia).
  assert (W1 : window_out W 3 1 1 = W)
    by (unfold window_out; rewrite Z.div_1_r; lia).
  unfold Spec.SplitUnit. rewrite forward_split.
  rewrite meta_chunk_even by assumption. cbn [bind]. seq_step.
  rewrite forward_ConvBlock_meta
    by first [lia | now rewrite !window_out_pointwise].
  cbn [bind]. rewrite !window_out_pointwise. seq_step.
  rewrite forward_DepthwiseSeparableBlock_meta
    by first [lia | now rewrite H1, W1].
  cbn [bind]. seq_step. cbn [bind]. rewrite H1, W1.
  rewrite meta_cat_channels. cbn [bind].
  replace (C / 2 + C / 2) with C by lia.
  apply channel_shuffle_meta; lia.
Qed.

(** The strided unit: both branches end with [o / 2] channels on the
    strided extent. *)
Lemma forward_FullInputUnit_meta (i o s B H W : Z) :
  0 < s -> 0 < i -> 0 < o / 2 -> 1 <= B -> 1 <= H -> 1 <= W ->
  B * window_out H 3 1 s * window_out W 3 1 s <> 1 ->
  forward (Spec.FullInputUnit i o s) (Meta [B; i; H; W])
  = Ok (Meta [B; 2 * (o / 2); window_out H 3 1 s; window_out W 3 1 s]).
Proof.
  intros Hs Hi Ho HB HH HW Hv.
  pose proof (window_out_pos H 3 1 s Hs ltac:(lia)).
  pose proof (window_out_pos W 3 1 s Hs ltac:(lia)).
  assert (Hv1 : B * H * W <> 1).
  { apply (several_values_mono B H W _ _ HB) in Hv; trivial;
      split; trivial; now apply window_out_le. }
  unfold Spec.FullInputUnit. rewrite forward_full.
  rewrite forward_DepthwiseSeparableBlock_meta by first [lia | assumption].
  cbn [bind]. seq_step.
  rewrite forward_ConvBlock_meta
    by first [lia | now rewrite !window_out_pointwise].
  cbn [bind]. rewrite !window_out_pointwise. seq_step.
  rewrite forward_DepthwiseSeparableBlock_meta by first [lia | assumption].
  cbn [bind]. seq_step. cbn [bind].
  rewrite meta_cat_channels. cbn [bind].
  replace (o / 2 + o / 2) with (2 * (o / 2)) by lia.
  apply channel_shuffle_meta; try lia.
  rewrite Z.mul_comm. apply Z.mod_mul. lia.
Qed.

Lemma window_out_half (n : Z) : window_out n 3 1 2 = (n + 1) / 2.
Proof.
  unfold window_out. replace (n + 2 * 1 - 3) with (n + 1 + (-1) * 2) by lia.
  rewrite Z.div_add by lia. lia.
Qed.

Lemma forward_split_units_meta (n : nat) (B C H W : Z) :
  2 <= C -> C mod 2 = 0 -> 1 <= B -> 1 <= H -> 1 <= W -> B * H * W <> 1 ->
  forward (Sequential (repeat (Spec.SplitUnit C) n)) (Meta [B; C; H; W])
  = Ok (Meta [B; C; H; W]).
Proof.
  intros HC Hm HB HH HW Hv.
  induction n as [|n IH]; cbn [repeat]; seq_step; [reflexivity|].
  rewrite forward_SplitUnit_meta by assumption. exact IH.
Qed.

(** A stage halves the extent (rounding up) and sets the width. *)
Lemma forward_Stage_meta (i o d B H W : Z) :
  0 < i -> 2 <= o -> o mod 2 = 0 -> 1 <= B -> 1 <= H -> 1 <= W ->
  B * ((H + 1) / 2) * ((W + 1) / 2) <> 1 ->
  forward (Spec.Stage i o d) (Meta [B; i; H; W])
  = Ok (Meta [B; o; (H + 1) / 2; (W + 1) / 2]).
Proof.
  intros Hi Ho Hm HB HH HW Hv.
  assert (Ho2 : o = 2 * (o / 2)) by (apply Z.div_exact; lia).
  unfold Spec.Stage. seq_step.
  rewrite forward_FullInputUnit_meta
    by first [lia | now rewrite !window_out_half].
  cbn [bind]. rewrite <- Ho2, !window_out_half.
  assert (1 <= (H + 1) / 2) by (apply Z.div_le_lower_bound; lia).
  assert (1 <= (W + 1) / 2) by (apply Z.div_le_lower_bound; lia).
  apply forward_split_units_meta; assumption.
Qed.

Lemma halve_pos (n : Z) : 1 <= n -> 1 <= halve n.
Proof. intros Hn. unfold halve. apply Z.div_le_lower_bound; lia. Qed.

Lemma halve_le (n : Z) : 1 <= n -> halve n <= n.
Proof. intros Hn. unfold halve. apply Z.div_le_upper_bound; lia. Qed.

Lemma several_values_halve (B h w : Z) :
  1 <= B -> 1 <= h -> 1 <= w ->
  B * halve h * halve w <> 1 -> B * h * w <> 1.
Proof.
  intros HB Hh Hw. apply several_values_mono; trivial;
    (split; [now apply halve_pos|now apply halve_le]).
Qed.

Lemma halve_double (n : Z) : halve (2 * n) = n.
Proof.
  unfold halve. symmetry. apply (Z.div_unique _ _ _ 1); lia.
Qed.

Lemma halve5_div32 (n : Z) :
  n mod 32 = 0 -> halve (halve (halve (halve (halve n)))) = n / 32.
Proof.
  intros Hm. assert (Hn : n = 32 * (n / 32)) by (apply Z.div_exact; lia).
  rewrite Hn at 1.
  replace (32 * (n / 32)) with (2 * (2 * (2 * (2 * (2 * (n / 32)))))) by ring.
  now rewrite !halve_double.
Qed.

Lemma forward_MaxPool2d_meta (B C H W : Z) :
  1 <= H -> 1 <= W ->
  forward (MaxPool2d 3 2 1) (Meta [B; C; H; W])
  = Ok (Meta [B; C; halve H; halve W]).
Proof.
  intros HH HW.
  pose proof (halve_pos H HH). pose proof (halve_pos W HW).
  cbn [forward max_pool2d meta_TorchOps]. unfold meta_max_pool2d. cbn [dims].
  rewrite !window_out_half. fold (halve H). fold (halve W).
  change (check _ RuntimeError) with (Ok tt) at 1. cbn [bind].
  pass_check. reflexivity.
Qed.

Lemma forward_Features_meta (i d1 d2 d3 c0 c1 c2 c3 c4 B H W : Z) :
  0 < i -> 0 < c0 ->
  2 <= c1 -> c1 mod 2 = 0 ->
  2 <= c2 -> c2 mod 2 = 0 ->
  2 <= c3 -> c3 mod 2 = 0 ->
  0 < c4 ->
  1 <= B -> 1 <= H -> 1 <= W ->
  B * halve (halve (halve (halve (halve H))))
    * halve (halve (halve (halve (halve W)))) <> 1 ->
  forward (Spec.Features i d1 d2 d3 c0 c1 c2 c3 c4) (Meta [B; i; H; W])
  = Ok (Meta [B; c4; halve (halve (halve (halve (halve H))));
              halve (halve (halve (halve (halve W))))]).
Proof.
  intros Hi H0 H1 E1 H2 E2 H3 E3 H4 HB HH HW Hv5.
  pose proof (halve_pos H HH) as Hh1. pose proof (halve_pos W HW) as Hw1.
  pose proof (halve_pos _ Hh1) as Hh2. pose proof (halve_pos _ Hw1) as Hw2.
  pose proof (halve_pos _ Hh2) as Hh3. pose proof (halve_pos _ Hw2) as Hw3.
  pose proof (halve_pos _ Hh3) as Hh4. pose proof (halve_pos _ Hw3) as Hw4.
  pose proof (halve_pos _ Hh4) as Hh5. pose proof (halve_pos _ Hw4) as Hw5.
  pose proof (several_values_halve B _ _ HB Hh4 Hw4 Hv5) as Hv4.
  pose proof (several_values_halve B _ _ HB Hh3 Hw3 Hv4) as Hv3.
  pose proof (several_values_halve B _ _ HB Hh2 Hw2 Hv3) as Hv2.
  pose proof (several_values_halve B _ _ HB Hh1 Hw1 Hv2) as Hv1.
  unfold Spec.Features. seq_step.
  rewrite forward_ConvBlock_meta
    by first [lia | rewrite !window_out_half; exact Hv1].
  cbn [bind]. rewrite !window_out_half. fold (halve H). fold (halve W).
  seq_step.
  rewrite forward_MaxPool2d_meta by lia. cbn [bind]. seq_step. cbn [bind].
  rewrite forward_Stage_meta by first [lia | exact Hv3]. cbn [bind].
  fold (halve (halve (halve H))). fold (halve (halve (halve W))). seq_step.
  rewrite forward_Stage_meta by first [lia | exact Hv4]. cbn [bind].
  fold (halve (halve (halve (halve H)))).
  fold (halve (halve (halve (halve W)))). seq_step.
  rewrite forward_Stage_meta by first [lia | exact Hv5]. cbn [bind].
  fold (halve (halve (halve (halve (halve H))))).
  fold (halve (halve (halve (halve (halve W))))). seq_step.
  rewrite forward_ConvBlock_meta
    by first [lia | rewrite !window_out_pointwise; exact Hv5].
  cbn [bind]. rewrite !window_out_pointwise. reflexivity.
Qed.

Lemma forward_Classifier_meta (c4 nc B H W : Z) :
  0 < c4 -> 1 <= H -> 1 <= W ->
  forward (Spec.Classifier c4 nc) (Meta [B; c4; H; W]) = Ok (Meta [B; nc]).
Proof.
  intros Hc HH HW. unfold Spec.Classifier.
  assert (Hpool : forward (AdaptiveAvgPool2d 1) (Meta [B; c4; H; W])
                  = Ok (Meta [B; c4; 1; 1])).
  { cbn [forward adaptive_avg_pool2d meta_TorchOps].
    unfold meta_adaptive_avg_pool2d. cbn [dims]. pass_check. reflexivity. }
  assert (Hflat : forward Flatten (Meta [B; c4; 1; 1]) = Ok (Meta [B; c4])).
  { cbn [forward flatten meta_TorchOps]. unfold meta_flatten.
    cbn [dims numel fold_right].
    replace (c4 * (1 * (1 * 1))) with c4 by lia. reflexivity. }
  assert (Hfc : forward (Linear c4 nc true) (Meta [B; c4])
                = Ok (Meta [B; nc])).
  { cbn [forward linear meta_TorchOps]. unfold meta_linear.
    cbn [dims rev app]. pass_check. reflexivity. }
  rewrite forward_Sequential_cons, Hpool. cbn [bind].
  rewrite forward_Sequential_cons, Hflat. cbn [bind].
  rewrite forward_Sequential_cons, Hfc. reflexivity.
Qed.

(** The whole network on a batch of images. *)
Lemma forward_Network_meta (i nc d1 d2 d3 c0 c1 c2 c3 c4 B H W : Z) :
  0 < i -> 0 < c0 ->
  2 <= c1 -> c1 mod 2 = 0 ->
  2 <= c2 -> c2 mod 2 = 0 ->
  2 <= c3 -> c3 mod 2 = 0 ->
  0 < c4 ->
  1 <= B -> 1 <= H -> 1 <= W ->
  B * halve (halve (halve (halve (halve H))))
    * halve (halve (halve (halve (halve W)))) <> 1 ->
  forward (Spec.Network i nc d1 d2 d3 c0 c1 c2 c3 c4) (Meta [B; i; H; W])
  = Ok (Meta [B; nc]).
Proof.
  intros. unfold Spec.Network. seq_step.
  rewrite forward_Features_meta by assumption. seq_step.
  rewrite forward_Classifier_meta; [reflexivity|lia| |];
    repeat apply halve_pos; assumption.
Qed.

(** *** Flat positions and multi-indices *)

Lemma numel_nonneg (s : list Z) :
  Forall (fun d => 0 <= d) s -> 0 <= numel s.
Proof.
  induction 1 as [|d s Hd _ IH]; cbn [numel fold_right]; [lia|].
  fold (numel s). nia.
Qed.

Lemma ravel_bound (s idx : list Z) :
  in_bounds s idx -> 0 <= ravel s idx < numel s.
Proof.
  induction 1 as [|d i s idx Hi _ IH]; cbn [ravel numel fold_right]; [lia|].
  fold (numel s). nia.
Qed.

Lemma unravel_ravel (s idx : list Z) :
  in_bounds s idx -> unravel s (ravel s idx) = idx.
Proof.
  induction 1 as [|d i s idx Hi Hrest IH]; cbn [ravel unravel]; [reflexivity|].
  pose proof (ravel_bound s idx Hrest) as Hr.
  rewrite Z.add_comm, Z.div_add, Z.mod_add by lia.
  rewrite Z.div_small, Z.mod_small by lia.
  now rewrite IH.
Qed.

Lemma unravel_bounds (s : list Z) (k : Z) :
  Forall (fun d => 0 <= d) s -> 0 <= k < numel s -> in_bounds s (unravel s k).
Proof.
  intros Hs. revert k.
  induction Hs as [|d s Hd Hs IH]; intros k Hk; cbn [unravel].
  - constructor.
  - cbn [numel fold_right] in Hk. fold (numel s) in Hk.
    pose proof (numel_nonneg s Hs) as Hn.
    assert (0 < numel s) by nia.
    constructor.
    + split; [apply Z.div_pos; lia|].
      apply Z.div_lt_upper_bound; [lia|nia].
    + apply IH. apply Z.mod_pos_bound. lia.
Qed.

Lemma ravel_unravel (s : list Z) (k : Z) :
  Forall (fun d => 0 <= d) s -> 0 <= k < numel s ->
  ravel s (unravel s k) = k.
Proof.
  intros Hs. revert k.
  induction Hs as [|d s Hd Hs IH]; intros k Hk; cbn [unravel ravel].
  - cbn in Hk. lia.
  - cbn [numel fold_right] in Hk. fold (numel s) in Hk.
    pose proof (numel_nonneg s Hs) as Hn.
    assert (0 < numel s) by nia.
    rewrite IH by (apply Z.mod_pos_bound; lia).
    pose proof (Z.div_mod k (numel s)). lia.
Qed.

Lemma nth_error_zrange (n : Z) (p : nat) :
  (p < Z.to_nat n)%nat -> nth_error (zrange n) p = Some (Z.of_nat p).
Proof.
  intros Hp. unfold zrange.
  rewrite nth_error_map, nth_error_seq.
  apply Nat.ltb_lt in Hp. now rewrite Hp.
Qed.

Lemma length_zrange (n : Z) : List.length (zrange n) = Z.to_nat n.
Proof. unfold zrange. now rewrite length_map, length_seq. Qed.

Section DenseFacts.
Context {A : Type}.
Implicit Types x y : tensor A.

Lemma well_formed_iff x :
  well_formed x = true <->
  Forall (fun d => 0 <= d) (t_shape x)
  /\ Z.of_nat (List.length (t_data x)) = numel (t_shape x).
Proof.
  unfold well_formed. rewrite andb_true_iff, Z.eqb_eq, forallb_forall.
  rewrite Forall_forall. split; intros [Hs Hl]; split; trivial;
    intros d Hd; specialize (Hs d Hd); lia.
Qed.

(** An entry of a well-formed tensor, read with a default. *)
Lemma get_nth x (idx : list Z) (d : A) :
  well_formed x = true -> in_bounds (t_shape x) idx ->
  get x idx = Some (nth (Z.to_nat (ravel (t_shape x) idx)) (t_data x) d).
Proof.
  intros [_ Hl]%well_formed_iff Hb. unfold get.
  pose proof (ravel_bound _ _ Hb).
  apply nth_error_nth'. lia.
Qed.

(** Two well-formed tensors with the same shape and the same entries. *)
Lemma tensor_ext x y :
  well_formed x = true -> well_formed y = true ->
  t_shape x = t_shape y ->
  (forall idx, in_bounds (t_shape x) idx -> get x idx = get y idx) ->
  x = y.
Proof.
  intros Hx Hy Hs Hget.
  pose proof Hx as [Hsx Hlx]%well_formed_iff.
  pose proof Hy as [Hsy Hly]%well_formed_iff.
  destruct x as [sx dx], y as [sy dy]. cbn [t_shape t_data] in *. subst sy.
  f_equal. apply nth_error_ext. intros p.
  destruct (Nat.lt_ge_cases p (List.length dx)) as [Hp|Hp].
  - assert (Hk : 0 <= Z.of_nat p < numel sx) by lia.
    specialize (Hget (unravel sx (Z.of_nat p)) (unravel_bounds _ _ Hsx Hk)).
    unfold get in Hget. cbn [t_shape t_data] in Hget.
    now rewrite ravel_unravel, Nat2Z.id in Hget by assumption.
  - assert (Hq : (List.length dy <= p)%nat) by lia.
    apply nth_error_None in Hp, Hq. congruence.
Qed.
End DenseFacts.

(** *** The shuffle on dense tensors *)

Lemma in_bounds4 (B C H W b c h w : Z) :
  in_bounds [B; C; H; W] [b; c; h; w] <->
  (0 <= b < B) /\ (0 <= c < C) /\ (0 <= h < H) /\ (0 <= w < W).
Proof.
  unfold in_bounds. split.
  - intros Hb. inversion Hb as [|? ? ? ? ? Hb1]; subst.
    inversion Hb1 as [|? ? ? ? ? Hb2]; subst.
    inversion Hb2 as [|? ? ? ? ? Hb3]; subst.
    inversion Hb3; subst. tauto.
  - intros (? & ? & ? & ?). repeat constructor; lia.
Qed.

Lemma shuffle_source_bound (C g c : Z) :
  0 < g -> C mod g = 0 -> 0 <= c < C -> 0 <= shuffle_source C g c < C.
Proof.
  intros Hg Hm Hc. unfold shuffle_source.
  assert (HC : C = g * (C / g)) by (apply Z.div_exact; lia).
  pose proof (Z.mod_pos_bound c g Hg).
  assert (0 <= c / g) by (apply Z.div_pos; lia).
  assert (c / g < C / g) by (apply Z.div_lt_upper_bound; lia).
  nia.
Qed.

Section Shuffle.
Context {A : Type}.
Implicit Types x y : tensor A.

Lemma channel_shuffle_dense x (B C H W g : Z) :
  t_shape x = [B; C; H; W] -> well_formed x = true ->
  0 < g -> C mod g = 0 ->
  exists y,
    channel_shuffle x g = Ok y
    /\ t_shape y = [B; C; H; W]
    /\ well_formed y = true
    /\ forall b c h w,
         in_bounds [B; C; H; W] [b; c; h; w] ->
         get y [b; c; h; w] = get x [b; shuffle_source C g c; h; w].
Proof.
  intros Hshape Hwf Hg Hm.
  pose proof Hwf as [Hs Hl]%well_formed_iff.
  destruct x as [s data]. cbn [t_shape t_data] in *. subst s.
  assert (HC : C = g * (C / g)) by (apply Z.div_exact; lia).
  inversion Hs as [|? ? HB Hs1]; subst.
  inversion Hs1 as [|? ? HC0 Hs2]; subst.
  inversion Hs2 as [|? ? HH Hs3]; subst.
  inversion Hs3 as [|? ? HW _]; subst.
  assert (Hn : 0 <= C / g) by (apply Z.div_pos; lia).
  assert (Hnumel : numel [B; C / g; g; H; W] = numel [B; C; H; W]).
  { cbn [numel fold_right]. rewrite HC at 2. ring. }
  unfold channel_shuffle. cbn [shape dense_TensorLike t_shape].
  rewrite check_true by (apply negb_true_iff, Z.eqb_neq; lia). cbn [bind].
  cbn [reshape transpose dense_TensorLike].
  unfold dense_reshape at 1. cbn [t_shape t_data forallb].
  rewrite check_true by bool_goal. cbn [bind].
  rewrite check_true
    by (apply Z.eqb_eq; cbn [numel fold_right]; rewrite HC at 2; ring).
  cbn [bind].
  unfold dense_transpose.
  cbn [t_shape t_data List.length Nat.ltb Nat.leb andb check bind].
  change (swap_at 1 2 [B; g; C / g; H; W]) with [B; C / g; g; H; W].
  unfold dense_reshape. cbn [t_shape t_data forallb].
  rewrite check_true by bool_goal. cbn [bind].
  rewrite check_true by (apply Z.eqb_eq; symmetry; exact Hnumel).
  cbn [bind].
  eexists. split; [reflexivity|]. split; [reflexivity|].
  destruct data as [|d data'].
  - (* no entries at all *)
    split; [exact Hwf|].
    intros b c h w Hb. apply ravel_bound in Hb.
    cbn [List.length] in Hl. lia.
  - set (data := d :: data') in *.
    split.
    + apply well_formed_iff. cbn [t_shape t_data]. split; [assumption|].
      rewrite length_map, length_zrange, Hnumel.
      rewrite Z2Nat.id; [reflexivity|]. rewrite <- Hl. lia.
    + intros b c h w Hb.
      pose proof Hb as (Hb0 & Hc & Hh & Hw)%in_bounds4.
      pose proof (shuffle_source_bound C g c Hg Hm Hc) as Hsrc.
      pose proof (Z.mod_pos_bound c g Hg) as Hi.
      assert (Hj : 0 <= c / g < C / g).
      { split; [apply Z.div_pos; lia|].
        apply Z.div_lt_upper_bound; lia. }
      assert (Hb5 : in_bounds [B; C / g; g; H; W]
                              [b; c / g; c mod g; h; w]).
      { repeat constructor; lia. }
      assert (Hk : ravel [B; C; H; W] [b; c; h; w]
                   = ravel [B; C / g; g; H; W] [b; c / g; c mod g; h; w]).
      { cbn [ravel numel fold_right].
        pose proof (Z.div_mod c g ltac:(lia)) as Hdm.
        rewrite HC at 1. rewrite Hdm at 1. ring. }
      assert (Hk' : ravel [B; g; C / g; H; W] [b; c mod g; c / g; h; w]
                    = ravel [B; C; H; W] [b; shuffle_source C g c; h; w]).
      { unfold shuffle_source. cbn [ravel numel fold_right].
        rewrite HC at 3. ring. }
      pose proof (ravel_bound _ _ Hb) as Hkb.
      unfold get at 1. cbn [t_shape t_data].
      rewrite nth_error_map, nth_error_zrange by (rewrite Hnumel; lia).
      cbn [option_map]. rewrite Z2Nat.id by lia.
      rewrite Hk, unravel_ravel by assumption.
      unfold swap_at. cbn [nth_error update]. rewrite Hk'.
      symmetry. apply (get_nth (Tensor [B; C; H; W] data)); [exact Hwf|].
      apply in_bounds4. lia.
Qed.
End Shuffle.

Lemma shuffle_source_inverse (C g c : Z) :
  0 < g -> 0 < C -> C mod g = 0 -> 0 <= c < C ->
  shuffle_source C (C / g) (shuffle_source C g c) = c.
Proof.
  intros Hg HC0 Hm Hc.
  assert (HC : C = g * (C / g)) by (apply Z.div_exact; lia).
  assert (Hn : 0 < C / g) by nia.
  assert (Hgn : C / (C / g) = g).
  { symmetry. apply (Z.div_unique _ _ _ 0); lia. }
  unfold shuffle_source. rewrite Hgn.
  pose proof (Z.mod_pos_bound c g Hg) as Hi.
  assert (Hj : 0 <= c / g < C / g).
  { split; [apply Z.div_pos; lia|]. apply Z.div_lt_upper_bound; lia. }
  assert (Hr : (c mod g * (C / g) + c / g) mod (C / g) = c / g).
  { rewrite Z.add_comm, Z.mod_add, Z.mod_small; lia. }
  assert (Hq : (c mod g * (C / g) + c / g) / (C / g) = c mod g).
  { rewrite Z.add_comm, Z.div_add, Z.div_small; lia. }
  rewrite Hr, Hq.
  pose proof (Z.div_mod c g ltac:(lia)). lia.
Qed.

Section ShuffleInverse.
Context {A : Type}.

(** Shuffling with [g] groups after shuffling with [C / g] groups
    restores the tensor. *)
Lemma channel_shuffle_inverse (x : tensor A) (B C H W g : Z) :
  t_shape x = [B; C; H; W] -> well_formed x = true ->
  0 < g -> 0 < C -> C mod g = 0 ->
  (y <- channel_shuffle x (C / g) ;; channel_shuffle y g) = Ok x.
Proof.
  intros Hshape Hwf Hg HC0 Hm.
  assert (HC : C = g * (C / g)) by (apply Z.div_exact; lia).
  assert (Hn : 0 < C / g) by nia.
  assert (Hmn : C mod (C / g) = 0).
  { rewrite HC at 1. apply Z.mod_mul. lia. }
  destruct (channel_shuffle_dense x B C H W (C / g) Hshape Hwf Hn Hmn)
    as (y & Hy & Hys & Hywf & Hyget).
  destruct (channel_shuffle_dense y B C H W g Hys Hywf Hg Hm)
    as (z & Hz & Hzs & Hzwf & Hzget).
  rewrite Hy. cbn [bind]. rewrite Hz. f_equal.
  apply tensor_ext; try assumption; [congruence|].
  rewrite Hzs. intros idx Hidx.
  pose proof Hidx as Hidx'. unfold in_bounds in Hidx'.
  inversion Hidx' as [|? b ? idx1 ? Hb1]; subst.
  inversion Hb1 as [|? c ? idx2 ? Hb2]; subst.
  inversion Hb2 as [|? h ? idx3 ? Hb3]; subst.
  inversion Hb3 as [|? w ? idx4 ? Hb4]; subst.
  inversion Hb4; subst.
  pose proof Hidx as (Hb & Hc & Hh & Hw)%in_bounds4.
  rewrite Hzget by assumption.
  rewrite Hyget
    by (apply in_bounds4; pose proof (shuffle_source_bound C g c); lia).
  now rewrite shuffle_source_inverse.
Qed.
End ShuffleInverse.

(** ** When construction raises *)

Lemma bind_raises_first {A B : Type} (r : result A) (k : A -> result B) :
  raises r -> raises (bind r k).
Proof. destruct r; cbn; tauto. Qed.

Lemma bind_raises_later {A B : Type} (r : result A) (k : A -> result B) :
  (forall a, raises (k a)) -> raises (bind r k).
Proof. intros Hk. destruct r; cbn; [apply Hk|exact I]. Qed.

Lemma returns_not_raises {A : Type} (r : result A) :
  returns r <-> ~ raises r.
Proof. destruct r; cbn; tauto. Qed.

(** A depthwise convolution over no channels has no valid group count. *)
Lemma DSConvBlock_raises (i o k p s : Z) (act : bool) :
  i <= 0 -> raises (DSConvBlock i o k p s act).
Proof.
  intros Hi. unfold DSConvBlock, nn_Conv2d at 1.
  rewrite (check_false (0 <? i)) by (apply Z.ltb_ge; lia).
  exact I.
Qed.

Lemma ConvBlock_raises (i o k p s : Z) (act : bool) :
  o < 0 -> raises (ConvBlock i o k p s act).
Proof.
  intros Ho. unfold ConvBlock. apply bind_raises_first. unfold nn_Conv2d.
  change (check (0 <? 1) ValueError) with (Ok tt). cbn [bind].
  apply bind_raises_later; intros ?. apply bind_raises_later; intros ?.
  apply bind_raises_first. rewrite check_false; [exact I|].
  replace (0 <=? o) with false by (symmetry; apply Z.leb_gt; lia).
  reflexivity.
Qed.

Lemma unit_raises_narrow (i o s : Z) :
  o <= 1 -> raises (InvertedResidualBlock_init i o s).
Proof.
  intros Ho. unfold InvertedResidualBlock_init. cbv zeta.
  assert (o / 2 <= 0).
  { apply Z.lt_succ_r. apply Z.div_lt_upper_bound; lia. }
  apply bind_raises_later; intros ?. apply bind_raises_later; intros ?.
  apply bind_raises_first. apply DSConvBlock_raises. lia.
Qed.

Lemma unit_raises_no_input (i o s : Z) :
  1 < s -> i <= 0 -> raises (InvertedResidualBlock_init i o s).
Proof.
  intros Hs Hi. unfold InvertedResidualBlock_init. cbv zeta.
  replace (1 <? s) with true by (symmetry; apply Z.ltb_lt; lia).
  apply bind_raises_first, bind_raises_first.
  apply DSConvBlock_raises. lia.
Qed.

Lemma make_layer_raises (i o d : Z) :
  i <= 0 \/ o <= 1 -> raises (make_layer i o d 2).
Proof.
  intros Hio. unfold make_layer. apply bind_raises_first.
  destruct Hio; [apply unit_raises_no_input|apply unit_raises_narrow]; lia.
Qed.

Lemma ShuffleNetV2_raises (i nc d1 d2 d3 c0 c1 c2 c3 c4 : Z) :
  c0 <= 0 \/ c1 <= 0 \/ c2 <= 0 \/ c3 <= 0 \/ c4 < 0 ->
  raises (ShuffleNetV2 i nc [d1; d2; d3] [c0; c1; c2; c3; c4]).
Proof.
  intros Hc. unfold ShuffleNetV2. cbn [getitem nth_error bind].
  apply bind_raises_later; intros stem.
  destruct (Z.le_gt_cases c0 0) as [H0|H0];
    [apply bind_raises_first, make_layer_raises; lia|].
  destruct (Z.le_gt_cases c1 0) as [H1|H1];
    [apply bind_raises_first, make_layer_raises; lia|].
  apply bind_raises_later; intros layer1.
  destruct (Z.le_gt_cases c2 0) as [H2|H2];
    [apply bind_raises_first, make_layer_raises; lia|].
  apply bind_raises_later; intros layer2.
  destruct (Z.le_gt_cases c3 0) as [H3|H3];
    [apply bind_raises_first, make_layer_raises; lia|].
  apply bind_raises_later; intros layer3.
  apply bind_raises_first, ConvBlock_raises. lia.
Qed.

(** What a returned strided unit tells about its arguments. *)
Lemma full_unit_returns (i o s : Z) :
  1 < s -> returns (InvertedResidualBlock_init i o s) -> 0 < i /\ 2 <= o.
Proof.
  intros Hs Hr. apply returns_not_raises in Hr.
  split.
  - destruct (Z.le_gt_cases i 0) as [Hi|Hi]; [|lia].
    exfalso. apply Hr. now apply unit_raises_no_input.
  - destruct (Z.le_gt_cases o 1) as [Ho|Ho]; [|lia].
    exfalso. apply Hr. now apply unit_raises_narrow.
Qed.

(** What [DSConvBlock] returns, whenever it returns. *)
Lemma DSConvBlock_inv (i o k p s : Z) (act : bool) (m : nn_Module) :
  DSConvBlock i o k p s act = Ok m ->
  m = Spec.DepthwiseSeparableBlock i o k p s act.
Proof.
  unfold DSConvBlock, nn_Conv2d, nn_BatchNorm2d.
  repeat match goal with
         | |- context [check ?c ?e] =>
             destruct (check c e) as [[]|]; cbn [bind]; [|discriminate]
         end.
  destruct act; intros [= <-]; reflexivity.
Qed.

Lemma make_layer_loop_inv (n : nat) (o : Z) (layers ls : list nn_Module) :
  make_layer_loop n o layers = Ok ls ->
  (n = O /\ ls = layers)
  \/ exists u, InvertedResidualBlock_init o o 1 = Ok u
               /\ ls = layers ++ repeat u n.
Proof.
  revert layers. induction n as [|n IH]; intros layers; cbn [make_layer_loop].
  - intros [= <-]. now left.
  - destruct (InvertedResidualBlock_init o o 1) as [u|e] eqn:Hu;
      cbn [bind]; [|discriminate].
    intros Hloop. right. exists u. split; [reflexivity|].
    destruct (IH _ Hloop) as [[-> ->]|(u' & [= <-] & ->)].
    + reflexivity.
    + now rewrite <- app_assoc.
Qed.

Lemma make_layer_inv (i o d : Z) (m : nn_Module) :
  make_layer i o d 2 = Ok m ->
  exists first rest,
    InvertedResidualBlock_init i o 2 = Ok first
    /\ (1 < d -> InvertedResidualBlock_init o o 1 = Ok rest)
    /\ m = Sequential (first :: repeat rest (Z.to_nat (d - 1))).
Proof.
  unfold make_layer.
  destruct (InvertedResidualBlock_init i o 2) as [first|e]; cbn [bind];
    [|discriminate].
  destruct (make_layer_loop _ _ _) as [ls|e] eqn:Hloop; cbn [bind];
    [|discriminate].
  intros [= <-].
  destruct (make_layer_loop_inv _ _ _ _ Hloop) as [[Hn ->]|(u & Hu & ->)].
  - exists first, first. split; [reflexivity|]. split; [lia|].
    now rewrite Hn.
  - exists first, u. auto.
Qed.

Lemma window_out_divides (n s : Z) :
  0 < s -> n mod s = 0 -> window_out n 3 1 s = n / s.
Proof.
  intros Hs Hm. unfold window_out.
  assert (Hn : n = s * (n / s)) by (apply Z.div_exact; lia).
  replace (n + 2 * 1 - 3) with (n - 1) by lia.
  assert ((n - 1) / s = n / s - 1); [|lia].
  symmetry. apply (Z.div_unique _ _ _ (s - 1)); lia.
Qed.

Lemma run_ShuffleNetV2 (i nc d1 d2 d3 c0 c1 c2 c3 c4 B H W : Z) :
  0 < i -> 0 <= nc -> 0 < c0 ->
  2 <= c1 -> c1 mod 2 = 0 ->
  2 <= c2 -> c2 mod 2 = 0 ->
  2 <= c3 -> c3 mod 2 = 0 ->
  0 < c4 ->
  1 <= B -> 1 <= H -> 1 <= W ->
  B * halve (halve (halve (halve (halve H))))
    * halve (halve (halve (halve (halve W)))) <> 1 ->
  run (ShuffleNetV2 i nc [d1; d2; d3] [c0; c1; c2; c3; c4]) (Meta [B; i; H; W])
  = Ok (Meta [B; nc]).
Proof.
  intros. unfold run. rewrite ShuffleNetV2_ok by lia. cbn [bind].
  now apply forward_Network_meta.
Qed.

(** ** What a returned evaluation tells *)

Lemma bind_Ok_inv {A B : Type} (r : result A) (k : A -> result B) (b : B) :
  bind r k = Ok b -> exists a, r = Ok a /\ k a = Ok b.
Proof. destruct r as [a|e]; cbn [bind]; [eauto|discriminate]. Qed.

(** Split the first step off an evaluation that returned. *)
Ltac first_step H z Hz :=
  apply bind_Ok_inv in H as (z & Hz & H); cbv beta in H.

Ltac seq_first_step H z Hz :=
  rewrite forward_Sequential_cons in H; first_step H z Hz.

Lemma check_Ok_inv (c : bool) (e : exn) (u : unit) :
  check c e = Ok u -> c = true.
Proof. destruct c; [reflexivity|discriminate]. Qed.

Lemma forward_BatchNorm2d_inv (n : Z) (x y : meta) :
  forward (BatchNorm2d n) x = Ok y ->
  y = x /\ exists B H W, x = Meta [B; n; H; W] /\ B * H * W <> 1.
Proof.
  destruct x as [dx]. cbn [forward batch_norm meta_TorchOps].
  unfold meta_batch_norm. cbn [dims].
  destruct dx as [|B [|C [|H [|W [|e dx]]]]]; try discriminate.
  intros (u & Hv%check_Ok_inv & Hrest)%bind_Ok_inv.
  apply bind_Ok_inv in Hrest as (u' & HC%check_Ok_inv & [= <-]).
  apply Z.eqb_eq in HC. subst C.
  apply negb_true_iff, Z.eqb_neq in Hv.
  split; [reflexivity|]. now exists B, H, W.
Qed.

(** A convolution followed by a normalization only takes batched input. *)
Lemma forward_Conv2d_BatchNorm2d_inv (i o k p s g : Z) (b : bool)
      (x y : meta) :
  (z <- forward (Conv2d i o k p s g b) x ;; forward (BatchNorm2d o) z) = Ok y ->
  exists B H W,
    x = Meta [B; i; H; W]
    /\ y = Meta [B; o; window_out H k p s; window_out W k p s]
    /\ B * window_out H k p s * window_out W k p s <> 1.
Proof.
  intros (z & Hconv & Hbn)%bind_Ok_inv.
  apply forward_BatchNorm2d_inv in Hbn as (-> & B & H & W & -> & Hv).
  destruct x as [dx]. revert Hconv.
  cbn [forward conv2d meta_TorchOps]. unfold meta_conv2d. cbn [dims].
  cbv zeta beta.
  destruct dx as [|a0 [|a1 [|a2 [|a3 [|a4 dx]]]]]; try discriminate.
  - intros (u & HC%check_Ok_inv & Hrest)%bind_Ok_inv.
    apply bind_Ok_inv in Hrest as (u1 & _ & Hrest).
    apply bind_Ok_inv in Hrest as (u2 & _ & Hrest).
    apply bind_Ok_inv in Hrest as (u3 & _ & Hrest). discriminate.
  - intros (u & HC%check_Ok_inv & Hrest)%bind_Ok_inv.
    apply bind_Ok_inv in Hrest as (u1 & _ & Hrest).
    apply bind_Ok_inv in Hrest as (u2 & _ & Hrest).
    apply bind_Ok_inv in Hrest as (u3 & _ & Hrest).
    injection Hrest as <- HH HW. apply Z.eqb_eq in HC. subst a1 H W.
    now exists a0, a2, a3.
Qed.

Lemma forward_ConvBlock_inv (i o k p s : Z) (act : bool) (x y : meta) :
  forward (Spec.ConvBlock i o k p s act) x = Ok y ->
  exists B H W,
    x = Meta [B; i; H; W]
    /\ y = Meta [B; o; window_out H k p s; window_out W k p s]
    /\ B * window_out H k p s * window_out W k p s <> 1.
Proof.
  unfold Spec.ConvBlock. cbn [app]. intros Hy.
  seq_first_step Hy z Hz. seq_first_step Hy z1 Hz1.
  rewrite forward_activation_meta in Hy. injection Hy as <-.
  apply (forward_Conv2d_BatchNorm2d_inv i o k p s 1 false).
  rewrite Hz. exact Hz1.
Qed.

Lemma forward_DepthwiseSeparableBlock_inv (i o k p s : Z) (act : bool)
      (x y : meta) :
  forward (Spec.DepthwiseSeparableBlock i o k p s act) x = Ok y ->
  exists B H W,
    x = Meta [B; i; H; W]
    /\ y = Meta [B; o; window_out H k p s; window_out W k p s]
    /\ B * window_out H k p s * window_out W k p s <> 1.
Proof.
  unfold Spec.DepthwiseSeparableBlock. cbn [app]. intros Hy.
  seq_first_step Hy z Hz. seq_first_step Hy z1 Hz1.
  assert (Hdw : (z <- forward (Conv2d i i k p s i false) x ;;
                 forward (BatchNorm2d i) z) = Ok z1)
    by (rewrite Hz; exact Hz1).
  apply forward_Conv2d_BatchNorm2d_inv in Hdw as (B & H & W & -> & -> & Hv).
  seq_first_step Hy z2 Hz2. seq_first_step Hy z3 Hz3.
  rewrite forward_activation_meta in Hy. injection Hy as <-.
  assert (Hpw : (z <- forward (Conv2d i o 1 0 1 1 false)
                        (Meta [B; i; window_out H k p s; window_out W k p s]) ;;
                 forward (BatchNorm2d o) z) = Ok z3)
    by (rewrite Hz2; exact Hz3).
  apply forward_Conv2d_BatchNorm2d_inv in Hpw
    as (B' & H' & W' & [= <- <- <-] & -> & _).
  rewrite !window_out_pointwise. now exists B, H, W.
Qed.

Lemma channel_shuffle_meta_inv (g B C H W : Z) (y : meta) :
  channel_shuffle (Meta [B; C; H; W]) g = Ok y -> y = Meta [B; C; H; W].
Proof.
  unfold channel_shuffle. cbn [shape meta_TensorLike dims].
  intros (u & _ & Hy)%bind_Ok_inv.
  apply bind_Ok_inv in Hy as (z & _ & Hy).
  apply bind_Ok_inv in Hy as (z' & _ & Hy).
  revert Hy. cbn [reshape meta_TensorLike]. unfold meta_reshape.
  intros (u1 & _ & Hy)%bind_Ok_inv.
  apply bind_Ok_inv in Hy as (u2 & _ & [= <-]). reflexivity.
Qed.

(** Whatever a strided unit returns has [2 * (o // 2)] channels on the
    strided extent of a batched input with [i] channels. *)
Lemma forward_FullInputUnit_inv (i o s : Z) (x y : meta) :
  forward (Spec.FullInputUnit i o s) x = Ok y ->
  exists B H W,
    x = Meta [B; i; H; W]
    /\ y = Meta [B; 2 * (o / 2); window_out H 3 1 s; window_out W 3 1 s]
    /\ B * window_out H 3 1 s * window_out W 3 1 s <> 1.
Proof.
  unfold Spec.FullInputUnit. rewrite forward_full. intros Hy.
  first_step Hy l Hl.
  apply forward_DepthwiseSeparableBlock_inv in Hl as (B & H & W & -> & -> & Hv).
  first_step Hy r Hr.
  seq_first_step Hr c Hc.
  apply forward_ConvBlock_inv in Hc as (B' & H' & W' & [= <- <- <-] & -> & _).
  seq_first_step Hr d Hd.
  rewrite forward_Sequential_nil in Hr. injection Hr as <-.
  apply forward_DepthwiseSeparableBlock_inv in Hd
    as (B' & H' & W' & [= <- <- <-] & -> & _).
  rewrite !window_out_pointwise in Hy.
  rewrite meta_cat_channels in Hy. cbn [bind] in Hy.
  apply channel_shuffle_meta_inv in Hy. subst y.
  exists B, H, W. split; [reflexivity|]. split; [|exact Hv].
  do 3 f_equal. lia.
Qed.

(** * The units *)

(** C1, as stated, fails: on one image of extent 1x1 the unit raises, the
    normalization of the right branch being given a single value per
    channel. *)
Lemma stride1_unit_refuses_single_value :
  2 <= 64 /\ 64 mod 2 = 0
  /\ returns (InvertedResidualBlock_init 64 64 1)
  /\ run (InvertedResidualBlock_init 64 64 1) (Meta [1; 64; 1; 1])
     = Raise ValueError.
Proof. repeat split; try lia; reflexivity. Qed.

(** C1, amended.  A stride-1 unit over [C] channels ([C] even,
    [Cin = Cout = C]) is built with no left branch and the right branch
    ConvBlock([C/2] to [C/2], 1x1) then DepthwiseSeparableBlock([C/2] to
    [C/2], 3x3, padding 1, stride 1).  Its [forward] cuts the input in two
    along the channel axis, at the midpoint ([C/2] channels each); the first
    half goes to the concatenation as it is, the second through the right
    branch; the concatenation (left first) is shuffled with 2 groups.  On
    every input [(B, C, H, W)] with more than one value per channel
    ([B * H * W] other than 1) the output has the shape of the input; on
    [(1, C, 1, 1)] the unit raises [ValueError]. *)
Theorem stride1_unit_splits_and_shuffles (C B H W : Z) :
  2 <= C -> C mod 2 = 0 -> 1 <= B -> 1 <= H -> 1 <= W -> B * H * W <> 1 ->
  InvertedResidualBlock_init C C 1
  = Ok (InvertedResidualBlock None
          (Sequential
             [Spec.ConvBlock (C / 2) (C / 2) 1 0 1 true;
              Spec.DepthwiseSeparableBlock (C / 2) (C / 2) 3 1 1 true]))
  /\ (forall (T : Type) (TL : TensorLike T) (TO : TorchOps T)
             (right : nn_Module) (x : T),
        forward (InvertedResidualBlock None right) x
        = (halves <- chunk x 2 1 ;;
           match halves with
           | [left_; right_] =>
               right_ <- forward right right_ ;;
               y <- cat [left_; right_] 1 ;;
               channel_shuffle y 2
           | _ => Raise ValueError
           end))
  /\ chunk (Meta [B; C; H; W]) 2 1
     = Ok [Meta [B; C / 2; H; W]; Meta [B; C / 2; H; W]]
  /\ run (InvertedResidualBlock_init C C 1) (Meta [B; C; H; W])
     = Ok (Meta [B; C; H; W])
  /\ run (InvertedResidualBlock_init C C 1) (Meta [1; C; 1; 1])
     = Raise ValueError.
Proof.
  intros HC Hm HB HH HW Hv. split; [|split; [|split; [|split]]].
  - now apply split_unit_ok.
  - intros. apply forward_split.
  - now apply meta_chunk_even.
  - unfold run. rewrite split_unit_ok by assumption. cbn [bind].
    now apply forward_SplitUnit_meta.
  - pose proof (half_pos C HC) as Hh.
    unfold run. rewrite split_unit_ok by assumption. cbn [bind].
    unfold Spec.SplitUnit. rewrite forward_split.
    rewrite meta_chunk_even by assumption. cbn [bind].
    rewrite forward_Sequential_cons. unfold Spec.ConvBlock at 1. cbn [app].
    rewrite forward_Sequential_cons, forward_Conv2d_meta by lia.
    cbn [bind]. rewrite forward_Sequential_cons, !window_out_pointwise.
    rewrite forward_BatchNorm2d_single. reflexivity.
Qed.

Lemma stride1_unit_splits_and_shuffles_witness :
  run (InvertedResidualBlock_init 64 64 1) (Meta [2; 64; 56; 56])
  = Ok (Meta [2; 64; 56; 56]).
Proof.
  apply (stride1_unit_splits_and_shuffles 64 2 56 56); try lia. reflexivity.
Defined.

(** C2, as stated, fails: on one image of extent 2x2 the unit of stride 2
    raises, the normalization after the strided convolution of the left
    branch being given a single value per channel. *)
Lemma strided_unit_refuses_single_value :
  1 < 2 /\ 116 mod 2 = 0
  /\ returns (InvertedResidualBlock_init 24 116 2)
  /\ run (InvertedResidualBlock_init 24 116 2) (Meta [1; 24; 2; 2])
     = Raise ValueError.
Proof. repeat split; try lia; reflexivity. Qed.

(** C2, amended.  A unit of stride [s > 1] from [Cin] to [Cout] channels
    ([Cout] even) is built with the left branch
    DepthwiseSeparableBlock([Cin] to [Cout/2], 3x3, padding 1, stride [s])
    and the right branch ConvBlock([Cin] to [Cout/2], 1x1) then
    DepthwiseSeparableBlock([Cout/2] to [Cout/2], 3x3, padding 1, stride
    [s]).  Its [forward] gives the whole input to both, concatenates the two
    outputs and shuffles with 2 groups.  Each extent [n] becomes
    [floor((n + 2 - 3) / s) + 1], which is [n / s] when [s] divides [n]; on
    every input with more than one value per channel on that strided extent
    the output has [Cout] channels on it, and with a single value there the
    unit raises [ValueError]. *)
Theorem strided_unit_feeds_both_branches (Cin Cout s B H W : Z) :
  1 < s -> 0 < Cin -> 2 <= Cout -> Cout mod 2 = 0 ->
  1 <= B -> 1 <= H -> 1 <= W ->
  InvertedResidualBlock_init Cin Cout s
  = Ok (InvertedResidualBlock
          (Some (Spec.DepthwiseSeparableBlock Cin (Cout / 2) 3 1 s true))
          (Sequential
             [Spec.ConvBlock Cin (Cout / 2) 1 0 1 true;
              Spec.DepthwiseSeparableBlock (Cout / 2) (Cout / 2) 3 1 s true]))
  /\ (forall (T : Type) (TL : TensorLike T) (TO : TorchOps T)
             (left right : nn_Module) (x : T),
        forward (InvertedResidualBlock (Some left) right) x
        = (left_ <- forward left x ;;
           right_ <- forward right x ;;
           y <- cat [left_; right_] 1 ;;
           channel_shuffle y 2))
  /\ (B * ((H + 2 * 1 - 3) / s + 1) * ((W + 2 * 1 - 3) / s + 1) <> 1 ->
      run (InvertedResidualBlock_init Cin Cout s) (Meta [B; Cin; H; W])
      = Ok (Meta [B; Cout; (H + 2 * 1 - 3) / s + 1; (W + 2 * 1 - 3) / s + 1]))
  /\ (B * ((H + 2 * 1 - 3) / s + 1) * ((W + 2 * 1 - 3) / s + 1) = 1 ->
      run (InvertedResidualBlock_init Cin Cout s) (Meta [B; Cin; H; W])
      = Raise ValueError)
  /\ (H mod s = 0 -> (H + 2 * 1 - 3) / s + 1 = H / s)
  /\ (W mod s = 0 -> (W + 2 * 1 - 3) / s + 1 = W / s).
Proof.
  intros Hs Hi Ho Hm HB HH HW.
  assert (Ho2 : Cout = 2 * (Cout / 2)) by (apply Z.div_exact; lia).
  pose proof (half_pos Cout Ho) as Hh.
  split; [|split; [|split; [|split; [|split]]]].
  - now apply full_unit_ok.
  - intros. apply forward_full.
  - intros Hv. unfold run. rewrite full_unit_ok by assumption. cbn [bind].
    rewrite forward_FullInputUnit_meta by first [lia | exact Hv].
    now rewrite <- Ho2.
  - intros Hv. unfold run. rewrite full_unit_ok by assumption. cbn [bind].
    unfold Spec.FullInputUnit. rewrite forward_full.
    unfold Spec.DepthwiseSeparableBlock at 1. cbn [app].
    rewrite forward_Sequential_cons, forward_Conv2d_meta by lia.
    cbn [bind]. rewrite forward_Sequential_cons.
    cbn [forward batch_norm meta_TorchOps]. unfold meta_batch_norm.
    cbn [dims]. unfold window_out.
    rewrite check_false; [reflexivity|].
    apply negb_false_iff, Z.eqb_eq. exact Hv.
  - intros HHs. apply (window_out_divides H s); lia.
  - intros HWs. apply (window_out_divides W s); lia.
Qed.

Lemma strided_unit_feeds_both_branches_witness :
  run (InvertedResidualBlock_init 24 116 2) (Meta [2; 24; 56; 56])
  = Ok (Meta [2; 116; (56 + 2 * 1 - 3) / 2 + 1; (56 + 2 * 1 - 3) / 2 + 1]).
Proof.
  apply (strided_unit_feeds_both_branches 24 116 2 2 56 56); try lia;
    first [reflexivity | discriminate].
Defined.

(** C10.  Every unit built with a stride above 1, whatever the parity of
    [Cout], sends a valid input to [2 * (Cout // 2)] channels: [Cout] when
    [Cout] is even and [Cout - 1] when it is odd.  Whenever its [forward]
    returns, the input was [(B, Cin, H, W)] and the output is
    [(B, 2 * (Cout // 2), H', W')] on the strided extent; and it returns on
    every such input with more than one value per channel on that extent.
    Construction itself returns for every [Cin >= 1] and [Cout >= 2], odd or
    even. *)
Theorem strided_unit_output_channels (Cin Cout s : Z) (unit_ : nn_Module) :
  1 < s ->
  InvertedResidualBlock_init Cin Cout s = Ok unit_ ->
  (forall x y,
     forward unit_ x = Ok y ->
     exists B H W,
       dims x = [B; Cin; H; W]
       /\ dims y = [B; 2 * (Cout / 2);
                    window_out H 3 1 s; window_out W 3 1 s])
  /\ (forall B H W,
        1 <= B -> 1 <= H -> 1 <= W ->
        B * window_out H 3 1 s * window_out W 3 1 s <> 1 ->
        forward unit_ (Meta [B; Cin; H; W])
        = Ok (Meta [B; 2 * (Cout / 2);
                    window_out H 3 1 s; window_out W 3 1 s]))
  /\ (Z.even Cout = true -> 2 * (Cout / 2) = Cout)
  /\ (Z.odd Cout = true -> 2 * (Cout / 2) = Cout - 1)
  /\ (forall i o, 0 < i -> 2 <= o -> returns (InvertedResidualBlock_init i o s)).
Proof.
  intros Hs Hunit.
  assert (Hr : returns (InvertedResidualBlock_init Cin Cout s))
    by (rewrite Hunit; exact I).
  destruct (full_unit_returns _ _ _ Hs Hr) as [Hi Ho].
  rewrite full_unit_ok in Hunit by assumption. injection Hunit as <-.
  pose proof (half_pos Cout Ho) as Hh.
  split; [|split; [|split; [|split]]].
  - intros x y Hy.
    apply forward_FullInputUnit_inv in Hy as (B & H & W & -> & -> & _).
    now exists B, H, W.
  - intros B H W HB HH HW Hv. apply forward_FullInputUnit_meta; lia.
  - intros He. rewrite Zeven_bool_iff in He. apply Zeven_div2 in He.
    rewrite Z.div2_div in He. lia.
  - intros Hodd. rewrite Zodd_bool_iff in Hodd. apply Zodd_div2 in Hodd.
    rewrite Z.div2_div in Hodd. lia.
  - intros i o Hi' Ho'. rewrite full_unit_ok by assumption. exact I.
Qed.

Lemma strided_unit_output_channels_witness :
  forward (Spec.FullInputUnit 24 117 2) (Meta [2; 24; 56; 56])
  = Ok (Meta [2; 116; 28; 28]).
Proof.
  apply (proj1 (proj2 (strided_unit_output_channels 24 117 2
                         (Spec.FullInputUnit 24 117 2)
                         ltac:(lia) eq_refl)) 2 56 56);
    first [lia | discriminate].
Defined.

(** C9.  DSConvBlock(Cin, Cout, k, p, s, flag) is, in this order: a
    convolution from [Cin] to [Cin] channels with [groups = Cin], kernel
    [k], padding [p], stride [s] and no bias; a normalization over [Cin]
    channels; a 1x1 convolution from [Cin] to [Cout] with no bias; a
    normalization over [Cout] channels; and an activation exactly when the
    flag is set.  It is returned for every [Cin >= 1], [Cout >= 0] and
    [k >= 0], and nothing else is ever returned. *)
Theorem DSConvBlock_layers (Cin Cout k p s : Z) (flag : bool) :
  let layers :=
    Sequential
      ([Conv2d Cin Cin k p s Cin false; BatchNorm2d Cin;
        Conv2d Cin Cout 1 0 1 1 false; BatchNorm2d Cout]
         ++ (if flag then [ReLU true] else [])) in
  (0 < Cin -> 0 <= Cout -> 0 <= k ->
   DSConvBlock Cin Cout k p s flag = Ok layers)
  /\ (forall m, DSConvBlock Cin Cout k p s flag = Ok m -> m = layers).
Proof.
  cbv zeta. split.
  - intros. now apply DSConvBlock_ok.
  - intros m Hm. now apply DSConvBlock_inv in Hm.
Qed.

Lemma DSConvBlock_layers_witness :
  DSConvBlock 24 58 3 1 2 true
  = Ok (Sequential
          [Conv2d 24 24 3 1 2 24 false; BatchNorm2d 24;
           Conv2d 24 58 1 0 1 1 false; BatchNorm2d 58; ReLU true]).
Proof.
  apply (proj1 (DSConvBlock_layers 24 58 3 1 2 true)); lia.
Defined.

(** * Stages and the network *)

(** C4.  For every depth [d >= 1], what [make_layer(Cin, Cout, d)] returns
    is the sequence of exactly [d] units whose first one is
    InvertedResidualBlock([Cin], [Cout], stride 2) and whose others are
    InvertedResidualBlock([Cout], [Cout]) (stride 1); it returns for every
    [Cin >= 1] and [Cout >= 2].  In particular [make_layer(24, 116, 4)] has
    4 units: the first one sends 24 channels to 116 and halves the extent,
    the three others keep 116 channels and the extent (on inputs that leave
    more than one value per channel to the normalizations). *)
Theorem make_layer_units (Cin Cout d : Z) :
  1 <= d ->
  (forall stage,
     make_layer Cin Cout d 2 = Ok stage ->
     exists first rest,
       InvertedResidualBlock_init Cin Cout 2 = Ok first
       /\ (1 < d -> InvertedResidualBlock_init Cout Cout 1 = Ok rest)
       /\ stage = Sequential (first :: repeat rest (Z.to_nat (d - 1)))
       /\ Z.of_nat (List.length (first :: repeat rest (Z.to_nat (d - 1)))) = d)
  /\ (0 < Cin -> 2 <= Cout -> returns (make_layer Cin Cout d 2))
  /\ (exists first rest,
        make_layer 24 116 4 2 = Ok (Sequential [first; rest; rest; rest])
        /\ forall B h w,
             1 <= B -> 1 <= h -> 1 <= w -> B * h * w <> 1 ->
             forward first (Meta [B; 24; 2 * h; 2 * w])
             = Ok (Meta [B; 116; h; w])
             /\ forward rest (Meta [B; 116; h; w]) = Ok (Meta [B; 116; h; w])).
Proof.
  intros Hd. split; [|split].
  - intros stage Hstage.
    destruct (make_layer_inv _ _ _ _ Hstage) as (first & rest & Hf & Hr & ->).
    exists first, rest. repeat split; try assumption.
    cbn [List.length]. rewrite repeat_length. lia.
  - intros Hi Ho. rewrite make_layer_ok by assumption. exact I.
  - exists (Spec.FullInputUnit 24 116 2), (Spec.SplitUnit 116).
    split; [reflexivity|].
    intros B h w HB Hh Hw Hv.
    assert (Eh : window_out (2 * h) 3 1 2 = h)
      by (rewrite window_out_half; apply halve_double).
    assert (Ew : window_out (2 * w) 3 1 2 = w)
      by (rewrite window_out_half; apply halve_double).
    split.
    + rewrite forward_FullInputUnit_meta
        by first [lia | reflexivity | now rewrite Eh, Ew].
      change (2 * (116 / 2)) with 116. now rewrite Eh, Ew.
    + apply forward_SplitUnit_meta; first [lia | reflexivity | assumption].
Qed.

Lemma make_layer_units_witness :
  returns (make_layer 24 116 4 2).
Proof.
  apply (make_layer_units 24 116 4); lia.
Defined.

(** C8, as stated, fails: on one image of extent 32x32 (a multiple of 32)
    the features of the x1.0 network raise, their last stage normalizing a
    single value per channel, and so the tail puts out nothing. *)
Lemma features_refuse_single_value :
  32 mod 32 = 0
  /\ exists features classifier,
       shufflenetv2_x1_0 3 1000
       = Ok (SequentialDict
               [("features", features); ("classifier", classifier)]%string)
       /\ forward features (Meta [1; 3; 32; 32]) = Raise ValueError.
Proof. split; [reflexivity|]. do 2 eexists. split; reflexivity. Qed.

(** C8, amended.  The network is, in this order: the head,
    ConvBlock([in_channels] to [c0], 3x3, padding 1, stride 2) then
    max-pooling (window 3, stride 2, padding 1); the three stages; the tail
    ConvBlock([c3] to [c4], 1x1); then average pooling to 1x1, flattening
    and a linear layer to [num_classes] with bias, after which nothing
    comes.  On an input whose extents are multiples of 32 and that leaves
    more than one value per channel at the tail ([B * (H / 32) * (W / 32)]
    other than 1), the tail puts out extents 32 times smaller. *)
Theorem network_layout (i nc d1 d2 d3 c0 c1 c2 c3 c4 B H W : Z) :
  0 < i -> 0 <= nc -> 0 < c0 -> 0 < c4 ->
  2 <= c1 -> c1 mod 2 = 0 ->
  2 <= c2 -> c2 mod 2 = 0 ->
  2 <= c3 -> c3 mod 2 = 0 ->
  1 <= B -> 1 <= H -> H mod 32 = 0 -> 1 <= W -> W mod 32 = 0 ->
  B * (H / 32) * (W / 32) <> 1 ->
  exists stage1 stage2 stage3,
    make_layer c0 c1 d1 2 = Ok stage1
    /\ make_layer c1 c2 d2 2 = Ok stage2
    /\ make_layer c2 c3 d3 2 = Ok stage3
    /\ let features :=
         SequentialDict
           [("head", Sequential [Spec.ConvBlock i c0 3 1 2 true;
                                 MaxPool2d 3 2 1]);
            ("layer1", stage1); ("layer2", stage2); ("layer3", stage3);
            ("tail", Spec.ConvBlock c3 c4 1 0 1 true)]%string in
       ShuffleNetV2 i nc [d1; d2; d3] [c0; c1; c2; c3; c4]
       = Ok (SequentialDict
               [("features", features);
                ("classifier",
                 Sequential [AdaptiveAvgPool2d 1; Flatten;
                             Linear c4 nc true])]%string)
       /\ forward features (Meta [B; i; H; W])
          = Ok (Meta [B; c4; H / 32; W / 32]).
Proof.
  intros Hi Hnc H0 H4 H1 E1 H2 E2 H3 E3 HB HH EH HW EW Hv.
  exists (Spec.Stage c0 c1 d1), (Spec.Stage c1 c2 d2),
         (Spec.Stage c2 c3 d3).
  rewrite !make_layer_ok by lia. repeat split.
  - apply ShuffleNetV2_ok; lia.
  - fold (Spec.Features i d1 d2 d3 c0 c1 c2 c3 c4).
    rewrite forward_Features_meta
      by first [assumption | now rewrite !halve5_div32].
    now rewrite !halve5_div32.
Qed.

Lemma network_layout_witness :
  exists stage1 stage2 stage3,
    make_layer 24 116 4 2 = Ok stage1
    /\ make_layer 116 232 8 2 = Ok stage2
    /\ make_layer 232 464 4 2 = Ok stage3
    /\ let features :=
         SequentialDict
           [("head", Sequential [Spec.ConvBlock 3 24 3 1 2 true;
                                 MaxPool2d 3 2 1]);
            ("layer1", stage1); ("layer2", stage2); ("layer3", stage3);
            ("tail", Spec.ConvBlock 464 1024 1 0 1 true)]%string in
       ShuffleNetV2 3 1000 [4; 8; 4] [24; 116; 232; 464; 1024]
       = Ok (SequentialDict
               [("features", features);
                ("classifier",
                 Sequential [AdaptiveAvgPool2d 1; Flatten;
                             Linear 1024 1000 true])]%string)
       /\ forward features (Meta [2; 3; 224; 224])
          = Ok (Meta [2; 1024; 224 / 32; 224 / 32]).
Proof.
  apply (network_layout 3 1000 4 8 4 24 116 232 464 1024 2 224 224);
    first [lia | reflexivity | discriminate].
Defined.

(** C3.  For each of the four presets, [in_channels] among 1 and 3,
    [num_classes] among 1, 10 and 1000 and every batch size [B >= 1], the
    network is built and sends an input of shape [(B, in_channels, 224,
    224)] to an output of shape [(B, num_classes)]. *)
Theorem presets_map_images_to_logits (B in_channels num_classes : Z)
        (preset : Z -> Z -> result nn_Module) :
  In preset [shufflenetv2_x0_5; shufflenetv2_x1_0;
             shufflenetv2_x1_5; shufflenetv2_x2_0] ->
  In in_channels [1; 3] ->
  In num_classes [1; 10; 1000] ->
  1 <= B ->
  exists net,
    preset in_channels num_classes = Ok net
    /\ forward net (Meta [B; in_channels; 224; 224])
       = Ok (Meta [B; num_classes]).
Proof.
  intros Hp Hi Hn HB.
  assert (Hi' : 0 < in_channels) by (cbn [In] in Hi; lia).
  assert (Hn' : 0 <= num_classes) by (cbn [In] in Hn; lia).
  assert (Hv : B * halve (halve (halve (halve (halve 224))))
                 * halve (halve (halve (halve (halve 224)))) <> 1).
  { change (halve (halve (halve (halve (halve 224))))) with 7. lia. }
  cbn [In] in Hp.
  destruct Hp as [<-|[<-|[<-|[<-|[]]]]];
    unfold shufflenetv2_x0_5, shufflenetv2_x1_0,
           shufflenetv2_x1_5, shufflenetv2_x2_0;
    rewrite ShuffleNetV2_ok by lia;
    (eexists; split; [reflexivity|]);
    apply forward_Network_meta; first [lia | reflexivity | exact Hv].
Qed.

Lemma presets_map_images_to_logits_witness :
  exists net,
    shufflenetv2_x1_0 3 1000 = Ok net
    /\ forward net (Meta [2; 3; 224; 224]) = Ok (Meta [2; 1000]).
Proof.
  apply (presets_map_images_to_logits 2 3 1000 shufflenetv2_x1_0);
    cbn [In]; try lia; tauto.
Defined.

(** * Construction failures *)

(** C5, as stated, fails: a depth of 0 and odd widths are both accepted. *)
Lemma construction_accepts_depth_0_and_odd_widths :
  (invalid_config [0; 8; 4] [24; 116; 232; 464; 1024]
   /\ returns (ShuffleNetV2 3 1000 [0; 8; 4] [24; 116; 232; 464; 1024]))
  /\ (invalid_config [4; 8; 4] [24; 117; 233; 465; 1024]
      /\ returns (ShuffleNetV2 3 1000 [4; 8; 4] [24; 117; 233; 465; 1024])).
Proof.
  split; split.
  - left. constructor. lia.
  - exact I.
  - right; left. exists 1%nat, 117. repeat split; try lia. discriminate.
  - exact I.
Qed.

(** C5, amended.  Construction raises whenever one of [c0], [c1], [c2],
    [c3] is at most 0 or [c4] is negative.  Depths and parities are not
    looked at: with positive [in_channels], [num_classes], [c0] and [c4] and
    with [c1], [c2], [c3] at least 2, construction returns a network for
    every three depths, and a depth below 1 gives the stage of depth 1. *)
Theorem construction_failures (i nc d1 d2 d3 c0 c1 c2 c3 c4 : Z) :
  (c0 <= 0 \/ c1 <= 0 \/ c2 <= 0 \/ c3 <= 0 \/ c4 < 0 ->
   raises (ShuffleNetV2 i nc [d1; d2; d3] [c0; c1; c2; c3; c4]))
  /\ (0 < i -> 0 < nc -> 0 < c0 -> 2 <= c1 -> 2 <= c2 -> 2 <= c3 -> 0 < c4 ->
      returns (ShuffleNetV2 i nc [d1; d2; d3] [c0; c1; c2; c3; c4]))
  /\ (d1 < 1 -> make_layer c0 c1 d1 2 = make_layer c0 c1 1 2).
Proof.
  split; [|split].
  - apply ShuffleNetV2_raises.
  - intros. rewrite ShuffleNetV2_ok by lia. exact I.
  - intros Hd. unfold make_layer.
    replace (Z.to_nat (d1 - 1)) with (Z.to_nat (1 - 1)) by lia.
    reflexivity.
Qed.

Lemma construction_failures_witness :
  raises (ShuffleNetV2 3 1000 [4; 8; 4] [24; 0; 232; 464; 1024])
  /\ returns (ShuffleNetV2 3 1000 [0; 8; 4] [24; 117; 232; 464; 1024])
  /\ make_layer 24 116 0 2 = make_layer 24 116 1 2.
Proof.
  pose proof (construction_failures 3 1000 4 8 4 24 0 232 464 1024) as Hr.
  pose proof (construction_failures 3 1000 0 8 4 24 117 232 464 1024) as Ho.
  pose proof (construction_failures 3 1000 0 8 4 24 116 232 464 1024) as Hd.
  split; [|split].
  - apply Hr. lia.
  - apply Ho; lia.
  - apply Hd. lia.
Defined.

(** * The channel shuffle *)

(** C6.  With 2 groups, the channels [[0; 1; 2; 3; 4; 5]] of a single cell
    become [[0; 3; 1; 4; 2; 5]].  In general, for [g] dividing the channel
    count [C], the output has the shape of the input and its channel [c]
    holds channel [(c mod g) * (C / g) + c / g] of the input, at the same
    batch and spatial position: the [(g, C / g)] view, transposed and
    flattened. *)
Theorem channel_shuffle_permutation :
  channel_shuffle (Tensor [1; 6; 1; 1] [0; 1; 2; 3; 4; 5]) 2
  = Ok (Tensor [1; 6; 1; 1] [0; 3; 1; 4; 2; 5])
  /\ forall (A : Type) (x : tensor A) (B C H W g : Z),
       t_shape x = [B; C; H; W] -> well_formed x = true ->
       0 < g -> C mod g = 0 ->
       exists y,
         channel_shuffle x g = Ok y
         /\ t_shape y = [B; C; H; W]
         /\ forall b c h w,
              0 <= b < B -> 0 <= c < C -> 0 <= h < H -> 0 <= w < W ->
              get y [b; c; h; w]
              = get x [b; (c mod g) * (C / g) + c / g; h; w]
              /\ get y [b; c; h; w] <> None.
Proof.
  split; [reflexivity|].
  intros A x B C H W g Hs Hwf Hg Hm.
  destruct (channel_shuffle_dense x B C H W g Hs Hwf Hg Hm)
    as (y & Hy & Hys & Hywf & Hget).
  exists y. split; [assumption|]. split; [assumption|].
  intros b c h w Hb Hc Hh Hw.
  assert (Hin : in_bounds [B; C; H; W] [b; c; h; w]) by (apply in_bounds4; lia).
  split; [now apply Hget|].
  rewrite <- Hys in Hin.
  destruct (t_data y) as [|d ?] eqn:Hd.
  - apply well_formed_iff in Hywf as [_ Hl]. apply ravel_bound in Hin.
    rewrite Hd in Hl. cbn [List.length] in Hl. lia.
  - rewrite (get_nth y _ d Hywf Hin). discriminate.
Qed.

Lemma channel_shuffle_permutation_witness :
  exists y,
    channel_shuffle (Tensor [2; 6; 1; 2] (zrange 24)) 2 = Ok y
    /\ t_shape y = [2; 6; 1; 2]
    /\ get y [1; 3; 0; 1] = get (Tensor [2; 6; 1; 2] (zrange 24)) [1; 4; 0; 1].
Proof.
  destruct (proj2 channel_shuffle_permutation Z
              (Tensor [2; 6; 1; 2] (zrange 24)) 2 6 1 2 2
              eq_refl eq_refl eq_refl eq_refl) as (y & Hy & Hs & Hget).
  exists y. split; [exact Hy|]. split; [exact Hs|].
  apply (Hget 1 3 0 1); lia.
Defined.

(** C7.  On a tensor with 6 channels, the shuffle with 2 groups followed by
    the shuffle with 3 groups gives the tensor back. *)
Theorem channel_shuffle_2_then_3 (A : Type) (x : tensor A) (B H W : Z) :
  t_shape x = [B; 6; H; W] -> well_formed x = true ->
  (y <- channel_shuffle x 2 ;; channel_shuffle y 3) = Ok x.
Proof.
  intros Hs Hwf.
  apply (channel_shuffle_inverse x B 6 H W 3 Hs Hwf); first [lia|reflexivity].
Qed.

Lemma channel_shuffle_2_then_3_witness :
  (y <- channel_shuffle (Tensor [2; 6; 1; 2] (zrange 24)) 2 ;;
   channel_shuffle y 3)
  = Ok (Tensor [2; 6; 1; 2] (zrange 24)).
Proof.
  apply (channel_shuffle_2_then_3 Z (Tensor [2; 6; 1; 2] (zrange 24)) 2 1 2);
    reflexivity.
Defined.

(** * Further properties of the builders *)

Lemma ConvBlock_inv (i o k p s : Z) (act : bool) (m : nn_Module) :
  ConvBlock i o k p s act = Ok m -> m = Spec.ConvBlock i o k p s act.
Proof.
  unfold ConvBlock, nn_Conv2d, nn_BatchNorm2d.
  repeat match goal with
         | |- context [check ?c ?e] =>
             destruct (check c e) as [[]|]; cbn [bind]; [|discriminate]
         end.
  destruct act; intros [= <-]; reflexivity.
Qed.

Lemma ConvBlock_raises_negative (i o k p s : Z) (act : bool) :
  i < 0 \/ o < 0 \/ k < 0 -> raises (ConvBlock i o k p s act).
Proof.
  intros Hneg.
  destruct (ConvBlock i o k p s act) as [m|e] eqn:Hm; [|exact I].
  exfalso. revert Hm. unfold ConvBlock, nn_Conv2d.
  change (check (0 <? 1) ValueError) with (Ok tt). cbn [bind].
  rewrite Z.div_1_r.
  destruct (check (i mod 1 =? 0) ValueError) as [[]|]; cbn [bind];
    [|discriminate].
  destruct (check (o mod 1 =? 0) ValueError) as [[]|]; cbn [bind];
    [|discriminate].
  rewrite check_false; [discriminate|].
  apply andb_false_iff. rewrite andb_false_iff, !Z.leb_gt. lia.
Qed.

(** X1.  ConvBlock(Cin, Cout, k, p, s, flag) is, in this order, a
    convolution from [Cin] to [Cout] channels with kernel [k], padding [p],
    stride [s], one group and no bias, a normalization over [Cout] channels,
    and an activation exactly when the flag is set.  It is returned for all
    non-negative [Cin], [Cout] and [k], nothing else is ever returned, and a
    negative [Cin], [Cout] or [k] makes the call raise. *)
Theorem ConvBlock_layers (Cin Cout k p s : Z) (flag : bool) :
  let layers :=
    Sequential
      ([Conv2d Cin Cout k p s 1 false; BatchNorm2d Cout]
         ++ (if flag then [ReLU true] else [])) in
  (0 <= Cin -> 0 <= Cout -> 0 <= k ->
   ConvBlock Cin Cout k p s flag = Ok layers)
  /\ (forall m, ConvBlock Cin Cout k p s flag = Ok m -> m = layers)
  /\ (Cin < 0 \/ Cout < 0 \/ k < 0 -> raises (ConvBlock Cin Cout k p s flag)).
Proof.
  cbv zeta. split; [|split].
  - intros. now apply ConvBlock_ok.
  - intros m Hm. now apply ConvBlock_inv in Hm.
  - apply ConvBlock_raises_negative.
Qed.

Lemma ConvBlock_layers_witness :
  ConvBlock 3 24 3 1 2 true
  = Ok (Sequential [Conv2d 3 24 3 1 2 1 false; BatchNorm2d 24; ReLU true])
  /\ raises (ConvBlock 3 (-1) 3 1 2 true).
Proof.
  split.
  - apply (proj1 (ConvBlock_layers 3 24 3 1 2 true)); lia.
  - apply (proj2 (proj2 (ConvBlock_layers 3 (-1) 3 1 2 true))). lia.
Defined.

(** X2.  A unit is returned exactly when [out_channels] is at least 2 and,
    for a stride above 1, [in_channels] is at least 1; otherwise the
    depthwise convolution of a branch has no valid group count and the call
    raises. *)
Theorem unit_construction_domain (Cin Cout s : Z) :
  1 <= s ->
  (returns (InvertedResidualBlock_init Cin Cout s)
   <-> 2 <= Cout /\ (1 < s -> 0 < Cin))
  /\ (raises (InvertedResidualBlock_init Cin Cout s)
      <-> Cout <= 1 \/ (1 < s /\ Cin <= 0)).
Proof.
  intros Hs.
  assert (Hret : 2 <= Cout -> (1 < s -> 0 < Cin) ->
                 returns (InvertedResidualBlock_init Cin Cout s)).
  { intros Ho Hi. destruct (Z.eq_dec s 1) as [->|Hne].
    - rewrite split_unit_ok by assumption. exact I.
    - rewrite full_unit_ok by lia. exact I. }
  assert (Hrai : Cout <= 1 \/ (1 < s /\ Cin <= 0) ->
                 raises (InvertedResidualBlock_init Cin Cout s)).
  { intros [Ho|[Hs1 Hi]];
      [now apply unit_raises_narrow|now apply unit_raises_no_input]. }
  split; split.
  - intros Hr. apply returns_not_raises in Hr.
    split; [|intros Hs1];
      match goal with
      | |- ?a <= ?b => destruct (Z.le_gt_cases a b); [assumption|]
      | |- ?a < ?b => destruct (Z.le_gt_cases b a); [|assumption]
      end; exfalso; apply Hr, Hrai; lia.
  - intros [Ho Hi]. now apply Hret.
  - intros Hr.
    destruct (Z.le_gt_cases Cout 1) as [Ho|Ho]; [now left|].
    destruct (Z.le_gt_cases s 1) as [Hs1|Hs1].
    + exfalso. pose proof (Hret ltac:(lia) ltac:(lia)) as Hok.
      apply returns_not_raises in Hok. contradiction.
    + destruct (Z.le_gt_cases Cin 0) as [Hi|Hi]; [right; lia|].
      exfalso. pose proof (Hret ltac:(lia) ltac:(lia)) as Hok.
      apply returns_not_raises in Hok. contradiction.
  - exact Hrai.
Qed.

Lemma unit_construction_domain_witness :
  returns (InvertedResidualBlock_init 24 117 2)
  /\ raises (InvertedResidualBlock_init 24 1 2).
Proof.
  split.
  - apply (proj1 (unit_construction_domain 24 117 2 ltac:(lia))). lia.
  - apply (proj2 (unit_construction_domain 24 1 2 ltac:(lia))). lia.
Defined.

Lemma forward_Conv2d_mismatch (i o k p s g B C H W : Z) (b : bool) :
  C <> i ->
  forward (Conv2d i o k p s g b) (Meta [B; C; H; W]) = Raise RuntimeError.
Proof.
  intros HC. cbn [forward conv2d meta_TorchOps]. unfold meta_conv2d.
  cbn [dims]. cbv zeta beta.
  rewrite check_false by (apply Z.eqb_neq; exact HC).
  reflexivity.
Qed.

Lemma forward_ConvBlock_mismatch (i o k p s B C H W : Z) (act : bool) :
  C <> i ->
  forward (Spec.ConvBlock i o k p s act) (Meta [B; C; H; W])
  = Raise RuntimeError.
Proof.
  intros HC. unfold Spec.ConvBlock. cbn [app].
  rewrite forward_Sequential_cons, forward_Conv2d_mismatch by exact HC.
  reflexivity.
Qed.

Lemma forward_DepthwiseSeparableBlock_mismatch (i o k p s B C H W : Z)
      (act : bool) :
  C <> i ->
  forward (Spec.DepthwiseSeparableBlock i o k p s act) (Meta [B; C; H; W])
  = Raise RuntimeError.
Proof.
  intros HC. unfold Spec.DepthwiseSeparableBlock. cbn [app].
  rewrite forward_Sequential_cons, forward_Conv2d_mismatch by exact HC.
  reflexivity.
Qed.

(** X3.  At stride 1 the unit does not look at [in_channels]:
    InvertedResidualBlock([Cin], [C]) is InvertedResidualBlock([C], [C]).
    It keeps the shape of an input with [C] channels ([C] even, more than
    one value per channel), and it raises on an input with [Cin] channels
    when the halves differ ([Cin] even, [Cin / 2] other than [C / 2]). *)
Theorem stride1_unit_ignores_in_channels (Cin C B H W : Z) :
  2 <= C -> C mod 2 = 0 -> 1 <= B -> 1 <= H -> 1 <= W -> B * H * W <> 1 ->
  InvertedResidualBlock_init Cin C 1 = InvertedResidualBlock_init C C 1
  /\ run (InvertedResidualBlock_init Cin C 1) (Meta [B; C; H; W])
     = Ok (Meta [B; C; H; W])
  /\ (2 <= Cin -> Cin mod 2 = 0 -> Cin / 2 <> C / 2 ->
      run (InvertedResidualBlock_init Cin C 1) (Meta [B; Cin; H; W])
      = Raise RuntimeError).
Proof.
  intros HC Hm HB HH HW Hv. split; [|split].
  - now rewrite !split_unit_ok.
  - unfold run. rewrite split_unit_ok by assumption. cbn [bind].
    now apply forward_SplitUnit_meta.
  - intros Hi Him Hne. unfold run.
    rewrite split_unit_ok by assumption. cbn [bind].
    unfold Spec.SplitUnit. rewrite forward_split.
    rewrite meta_chunk_even by assumption. cbn [bind].
    rewrite forward_Sequential_cons.
    rewrite forward_ConvBlock_mismatch by exact Hne. reflexivity.
Qed.

Lemma stride1_unit_ignores_in_channels_witness :
  InvertedResidualBlock_init 24 116 1 = InvertedResidualBlock_init 116 116 1
  /\ run (InvertedResidualBlock_init 24 116 1) (Meta [2; 116; 28; 28])
     = Ok (Meta [2; 116; 28; 28])
  /\ run (InvertedResidualBlock_init 24 116 1) (Meta [2; 24; 28; 28])
     = Raise RuntimeError.
Proof.
  pose proof (stride1_unit_ignores_in_channels 24 116 2 28 28
                ltac:(lia) eq_refl ltac:(lia) ltac:(lia) ltac:(lia)
                ltac:(lia))
    as (Hsame & Hkeep & Hbad).
  split; [exact Hsame|]. split; [exact Hkeep|].
  apply Hbad; [lia|reflexivity|discriminate].
Defined.

(** X4.  Whatever the depth, [make_layer] returns [max(depth, 1)] units,
    and on an input that leaves more than one value per channel on the
    halved extent the stage halves each extent once (rounding up) and sets
    the width: the depth has no effect on the output shape. *)
Theorem stage_shape_independent_of_depth (Cin Cout d B H W : Z) :
  0 < Cin -> 2 <= Cout -> Cout mod 2 = 0 ->
  1 <= B -> 1 <= H -> 1 <= W ->
  B * ((H + 1) / 2) * ((W + 1) / 2) <> 1 ->
  exists units,
    make_layer Cin Cout d 2 = Ok (Sequential units)
    /\ Z.of_nat (List.length units) = Z.max d 1
    /\ forward (Sequential units) (Meta [B; Cin; H; W])
       = Ok (Meta [B; Cout; (H + 1) / 2; (W + 1) / 2]).
Proof.
  intros Hi Ho Hm HB HH HW Hv.
  exists (Spec.FullInputUnit Cin Cout 2
            :: repeat (Spec.SplitUnit Cout) (Z.to_nat (d - 1))).
  split; [now apply make_layer_ok|]. split.
  - cbn [List.length]. rewrite repeat_length. lia.
  - now apply forward_Stage_meta.
Qed.

Lemma stage_shape_independent_of_depth_witness :
  exists units,
    make_layer 24 116 (-3) 2 = Ok (Sequential units)
    /\ Z.of_nat (List.length units) = Z.max (-3) 1
    /\ forward (Sequential units) (Meta [2; 24; 57; 56])
       = Ok (Meta [2; 116; (57 + 1) / 2; (56 + 1) / 2]).
Proof.
  apply (stage_shape_independent_of_depth 24 116 (-3) 2 57 56);
    first [lia | reflexivity | discriminate].
Defined.

(** * Further properties of the network *)

Lemma halve_ceil (n m : Z) :
  0 < m -> halve ((n + (m - 1)) / m) = (n + (2 * m - 1)) / (2 * m).
Proof.
  intros Hm. unfold halve.
  replace ((n + (m - 1)) / m + 1) with ((n + (2 * m - 1)) / m).
  - rewrite Z.div_div by lia. f_equal. lia.
  - replace (n + (2 * m - 1)) with (n + (m - 1) + 1 * m) by lia.
    now rewrite Z.div_add by lia.
Qed.

Lemma halve5_ceil (n : Z) :
  halve (halve (halve (halve (halve n)))) = (n + 31) / 32.
Proof.
  replace (halve n) with ((n + (2 * 1 - 1)) / (2 * 1))
    by (unfold halve; f_equal; lia).
  rewrite (halve_ceil n (2 * 1)) by lia.
  rewrite (halve_ceil n (2 * (2 * 1))) by lia.
  rewrite (halve_ceil n (2 * (2 * (2 * 1)))) by lia.
  rewrite (halve_ceil n (2 * (2 * (2 * (2 * 1))))) by lia.
  reflexivity.
Qed.

(** X5.  For every configuration with [c0 >= 1], even [c1], [c2], [c3]
    [>= 2] and [c4 >= 1], and every input [(B, in_channels, H, W)] that
    leaves more than one value per channel at the tail
    ([B * ceil(H / 32) * ceil(W / 32)] other than 1), the features end with
    [c4] channels on the extent [ceil(H / 32)] by [ceil(W / 32)] and the
    network returns the shape [(B, num_classes)]; the extents need not be
    multiples of 32, nor reach 32. *)
Theorem network_output_shape (i nc d1 d2 d3 c0 c1 c2 c3 c4 B H W : Z) :
  0 < i -> 0 < nc -> 0 < c0 ->
  2 <= c1 -> c1 mod 2 = 0 ->
  2 <= c2 -> c2 mod 2 = 0 ->
  2 <= c3 -> c3 mod 2 = 0 ->
  0 < c4 ->
  1 <= B -> 1 <= H -> 1 <= W ->
  B * ((H + 31) / 32) * ((W + 31) / 32) <> 1 ->
  exists features classifier,
    ShuffleNetV2 i nc [d1; d2; d3] [c0; c1; c2; c3; c4]
    = Ok (SequentialDict
            [("features", features); ("classifier", classifier)]%string)
    /\ forward features (Meta [B; i; H; W])
       = Ok (Meta [B; c4; (H + 31) / 32; (W + 31) / 32])
    /\ run (ShuffleNetV2 i nc [d1; d2; d3] [c0; c1; c2; c3; c4])
           (Meta [B; i; H; W])
       = Ok (Meta [B; nc]).
Proof.
  intros Hi Hnc H0 H1 E1 H2 E2 H3 E3 H4 HB HH HW Hv.
  rewrite <- !halve5_ceil in Hv.
  exists (Spec.Features i d1 d2 d3 c0 c1 c2 c3 c4),
         (Spec.Classifier c4 nc).
  split; [apply ShuffleNetV2_ok; lia|]. split.
  - rewrite forward_Features_meta by assumption. now rewrite !halve5_ceil.
  - apply run_ShuffleNetV2; first [lia | assumption].
Qed.

Lemma network_output_shape_witness :
  run (ShuffleNetV2 3 10 [4; 8; 4] [24; 116; 232; 464; 1024])
      (Meta [1; 3; 1; 33])
  = Ok (Meta [1; 10]).
Proof.
  destruct (network_output_shape 3 10 4 8 4 24 116 232 464 1024 1 1 33)
    as (features & classifier & _ & _ & Hrun);
    first [lia | reflexivity | discriminate | exact Hrun].
Defined.

(** X6.  An input whose channel count is not [in_channels] is refused by
    the first convolution: the evaluation raises a [RuntimeError]. *)
Theorem network_rejects_wrong_channels (i nc d1 d2 d3 c0 c1 c2 c3 c4 B C H W : Z) :
  0 <= i -> 0 <= nc -> 0 < c0 -> 2 <= c1 -> 2 <= c2 -> 2 <= c3 -> 0 <= c4 ->
  C <> i ->
  run (ShuffleNetV2 i nc [d1; d2; d3] [c0; c1; c2; c3; c4]) (Meta [B; C; H; W])
  = Raise RuntimeError.
Proof.
  intros. unfold run. rewrite ShuffleNetV2_ok by lia. cbn [bind].
  unfold Spec.Network, Spec.Features.
  rewrite !forward_SequentialDict_cons, forward_Sequential_cons.
  now rewrite forward_ConvBlock_mismatch.
Qed.

Lemma network_rejects_wrong_channels_witness :
  run (shufflenetv2_x1_0 3 1000) (Meta [2; 1; 224; 224]) = Raise RuntimeError.
Proof.
  apply (network_rejects_wrong_channels 3 1000 4 8 4 24 116 232 464 1024
           2 1 224 224); lia.
Defined.

(** X7.  [ShuffleNetV2] reads [block_channels[0..4]] and
    [block_depth[0..2]]: with fewer than 5 widths or fewer than 3 depths the
    call raises, and entries beyond those are never looked at. *)
Theorem config_lengths (i nc : Z) (block_depth block_channels : list Z) :
  ((List.length block_channels < 5)%nat \/ (List.length block_depth < 3)%nat ->
   raises (ShuffleNetV2 i nc block_depth block_channels))
  /\ (forall d1 d2 d3 c0 c1 c2 c3 c4 more_depths more_widths,
        ShuffleNetV2 i nc (d1 :: d2 :: d3 :: more_depths)
                     (c0 :: c1 :: c2 :: c3 :: c4 :: more_widths)
        = ShuffleNetV2 i nc [d1; d2; d3] [c0; c1; c2; c3; c4]).
Proof.
  split; [|reflexivity].
  intros Hlen. unfold ShuffleNetV2.
  destruct block_channels as [|c0 [|c1 cs]]; cbn [getitem nth_error bind];
    try exact I.
  { apply bind_raises_later; intros ?. exact I. }
  apply bind_raises_later; intros stem.
  destruct block_depth as [|d1 ds]; cbn [getitem nth_error bind];
    try exact I.
  apply bind_raises_later; intros layer1.
  destruct cs as [|c2 cs]; cbn [getitem nth_error bind]; try exact I.
  destruct ds as [|d2 ds]; cbn [getitem nth_error bind]; try exact I.
  apply bind_raises_later; intros layer2.
  destruct cs as [|c3 cs]; cbn [getitem nth_error bind]; try exact I.
  destruct ds as [|d3 ds]; cbn [getitem nth_error bind]; try exact I.
  apply bind_raises_later; intros layer3.
  destruct cs as [|c4 cs]; cbn [getitem nth_error bind]; try exact I.
  cbn [List.length] in Hlen. lia.
Qed.

Lemma config_lengths_witness :
  raises (ShuffleNetV2 3 1000 [4; 8] [24; 116; 232; 464; 1024]).
Proof.
  apply (proj1 (config_lengths 3 1000 [4; 8] [24; 116; 232; 464; 1024])).
  right. cbn [List.length]. lia.
Defined.

(** * Odd widths *)

Lemma double_half_even (C : Z) : (2 * (C / 2)) mod 2 = 0.
Proof. rewrite Z.mul_comm. apply Z.mod_mul. lia. Qed.

Lemma double_half_half (C : Z) : 2 * (C / 2) / 2 = C / 2.
Proof. rewrite Z.mul_comm. apply Z.div_mul. lia. Qed.

Lemma double_half_odd (C : Z) : C mod 2 <> 0 -> 2 * (C / 2) <> C.
Proof. intros Hm Heq. apply Hm. rewrite <- Heq. apply double_half_even. Qed.

(** A stride-1 unit of any width [C >= 2] keeps an input with
    [2 * (C // 2)] channels. *)
Lemma forward_SplitUnit_floor (B C H W : Z) :
  2 <= C -> 1 <= B -> 1 <= H -> 1 <= W -> B * H * W <> 1 ->
  forward (Spec.SplitUnit C) (Meta [B; 2 * (C / 2); H; W])
  = Ok (Meta [B; 2 * (C / 2); H; W]).
Proof.
  intros HC HB HH HW Hv. pose proof (half_pos C HC) as Hh.
  assert (H1 : window_out H 3 1 1 = H)
    by (unfold window_out; rewrite Z.div_1_r; lia).
  assert (W1 : window_out W 3 1 1 = W)
    by (unfold window_out; rewrite Z.div_1_r; lia).
  unfold Spec.SplitUnit. rewrite forward_split.
  rewrite meta_chunk_even by (rewrite ?double_half_even; lia).
  rewrite double_half_half. cbn [bind]. seq_step.
  rewrite forward_ConvBlock_meta
    by first [lia | now rewrite !window_out_pointwise].
  cbn [bind]. rewrite !window_out_pointwise. seq_step.
  rewrite forward_DepthwiseSeparableBlock_meta
    by first [lia | now rewrite H1, W1].
  seq_step. rewrite H1, W1.
  rewrite meta_cat_channels. cbn [bind].
  replace (C / 2 + C / 2) with (2 * (C / 2)) by lia.
  apply channel_shuffle_meta; rewrite ?double_half_even; lia.
Qed.

Lemma forward_Stage_floor (i o d B H W : Z) :
  0 < i -> 2 <= o -> 1 <= B -> 1 <= H -> 1 <= W ->
  B * halve H * halve W <> 1 ->
  forward (Spec.Stage i o d) (Meta [B; i; H; W])
  = Ok (Meta [B; 2 * (o / 2); halve H; halve W]).
Proof.
  intros Hi Ho HB HH HW Hv. pose proof (half_pos o Ho) as Hh.
  unfold Spec.Stage. seq_step.
  rewrite forward_FullInputUnit_meta
    by first [lia | rewrite !window_out_half; exact Hv].
  cbn [bind]. rewrite !window_out_half. fold (halve H). fold (halve W).
  pose proof (halve_pos H HH). pose proof (halve_pos W HW).
  induction (Z.to_nat (d - 1)) as [|n IH]; cbn [repeat]; seq_step;
    [reflexivity|].
  rewrite forward_SplitUnit_floor by assumption. exact IH.
Qed.

Lemma forward_Stage_mismatch (i o d B C H W : Z) :
  C <> i ->
  forward (Spec.Stage i o d) (Meta [B; C; H; W]) = Raise RuntimeError.
Proof.
  intros HC. unfold Spec.Stage, Spec.FullInputUnit.
  rewrite forward_Sequential_cons, forward_full.
  now rewrite forward_DepthwiseSeparableBlock_mismatch.
Qed.

(** X8.  A network with an odd width among [c1], [c2], [c3] is built, yet
    on an input that a network of even widths would take (more than one
    value per channel down to the tail) it raises a [RuntimeError]: the
    stage of odd width [c] puts out [c - 1] channels, and what comes next
    was built for [c]. *)
Theorem odd_width_network_raises
        (i nc d1 d2 d3 c0 c1 c2 c3 c4 B H W : Z) :
  0 < i -> 0 <= nc -> 0 < c0 -> 2 <= c1 -> 2 <= c2 -> 2 <= c3 -> 0 <= c4 ->
  c1 mod 2 <> 0 \/ c2 mod 2 <> 0 \/ c3 mod 2 <> 0 ->
  1 <= B -> 1 <= H -> 1 <= W ->
  B * ((H + 31) / 32) * ((W + 31) / 32) <> 1 ->
  returns (ShuffleNetV2 i nc [d1; d2; d3] [c0; c1; c2; c3; c4])
  /\ run (ShuffleNetV2 i nc [d1; d2; d3] [c0; c1; c2; c3; c4])
         (Meta [B; i; H; W])
     = Raise RuntimeError.
Proof.
  intros Hi Hnc H0 H1 H2 H3 H4 Hodd HB HH HW Hv5.
  rewrite <- !halve5_ceil in Hv5.
  unfold run. rewrite ShuffleNetV2_ok by lia. split; [exact I|].
  cbn [bind]. unfold Spec.Network, Spec.Features.
  pose proof (halve_pos H HH) as Hh1. pose proof (halve_pos W HW) as Hw1.
  pose proof (halve_pos _ Hh1) as Hh2. pose proof (halve_pos _ Hw1) as Hw2.
  pose proof (halve_pos _ Hh2) as Hh3. pose proof (halve_pos _ Hw2) as Hw3.
  pose proof (halve_pos _ Hh3) as Hh4. pose proof (halve_pos _ Hw3) as Hw4.
  pose proof (several_values_halve B _ _ HB Hh4 Hw4 Hv5) as Hv4.
  pose proof (several_values_halve B _ _ HB Hh3 Hw3 Hv4) as Hv3.
  pose proof (several_values_halve B _ _ HB Hh2 Hw2 Hv3) as Hv2.
  pose proof (several_values_halve B _ _ HB Hh1 Hw1 Hv2) as Hv1.
  rewrite forward_SequentialDict_cons.
  rewrite (forward_SequentialDict_cons "head"). seq_step.
  rewrite forward_ConvBlock_meta
    by first [lia | rewrite !window_out_half; exact Hv1].
  seq_step.
  rewrite !window_out_half. fold (halve H). fold (halve W).
  rewrite forward_MaxPool2d_meta by assumption. seq_step.
  rewrite forward_Stage_floor by assumption. cbn [bind].
  destruct (Z.eq_dec (c1 mod 2) 0) as [E1|E1].
  2: { rewrite forward_SequentialDict_cons.
       rewrite forward_Stage_mismatch by now apply double_half_odd.
       reflexivity. }
  replace (2 * (c1 / 2)) with c1 by (apply Z.div_exact; lia).
  rewrite forward_SequentialDict_cons.
  rewrite forward_Stage_floor by first [lia | assumption]. cbn [bind].
  destruct (Z.eq_dec (c2 mod 2) 0) as [E2|E2].
  2: { rewrite forward_SequentialDict_cons.
       rewrite forward_Stage_mismatch by now apply double_half_odd.
       reflexivity. }
  replace (2 * (c2 / 2)) with c2 by (apply Z.div_exact; lia).
  rewrite forward_SequentialDict_cons.
  rewrite forward_Stage_floor by first [lia | assumption]. cbn [bind].
  assert (E3 : c3 mod 2 <> 0) by tauto.
  rewrite forward_SequentialDict_cons.
  rewrite forward_ConvBlock_mismatch by now apply double_half_odd.
  reflexivity.
Qed.

Lemma odd_width_network_raises_witness :
  returns (ShuffleNetV2 3 1000 [4; 8; 4] [24; 117; 232; 464; 1024])
  /\ run (ShuffleNetV2 3 1000 [4; 8; 4] [24; 117; 232; 464; 1024])
         (Meta [2; 3; 224; 224])
     = Raise RuntimeError.
Proof.
  apply (odd_width_network_raises
           3 1000 4 8 4 24 117 232 464 1024 2 224 224); try lia;
    first [left; discriminate | discriminate].
Defined.

(** * Where the shuffle is defined *)

Lemma channel_shuffle_meta_indivisible (g B C H W : Z) :
  0 < g -> C mod g <> 0 -> 1 <= B -> 0 <= C -> 1 <= H -> 1 <= W ->
  channel_shuffle (Meta [B; C; H; W]) g = Raise RuntimeError.
Proof.
  intros Hg Hm HB HC HH HW.
  assert (0 <= C / g) by (apply Z.div_pos; lia).
  assert (Hq : g * (C / g) <> C).
  { intros Heq. apply Hm. rewrite <- Heq, Z.mul_comm. apply Z.mod_mul. lia. }
  unfold channel_shuffle. cbn [shape meta_TensorLike dims].
  rewrite check_true by (apply negb_true_iff, Z.eqb_neq; lia). cbn [bind].
  cbn [reshape meta_TensorLike]. unfold meta_reshape.
  cbn [dims forallb numel fold_right].
  rewrite check_true by bool_goal. cbn [bind].
  rewrite check_false; [reflexivity|].
  apply Z.eqb_neq. intros Heq. apply Hq.
  assert (0 < B * (H * W)) by nia.
  apply (Z.mul_reg_r _ _ (B * (H * W))); [lia|].
  rewrite <- (Z.mul_1_r W) at 1 2. lia.
Qed.

Lemma channel_shuffle_meta_negative (g B C H W : Z) :
  g < 0 -> channel_shuffle (Meta [B; C; H; W]) g = Raise RuntimeError.
Proof.
  intros Hg. unfold channel_shuffle. cbn [shape meta_TensorLike dims].
  rewrite check_true by (apply negb_true_iff, Z.eqb_neq; lia). cbn [bind].
  cbn [reshape meta_TensorLike]. unfold meta_reshape. cbn [dims forallb].
  rewrite check_false; [reflexivity|].
  replace (0 <=? g) with false by (symmetry; apply Z.leb_gt; lia).
  now rewrite andb_false_r.
Qed.

(** X9.  On a shape [(B, C, H, W)] with no zero extent, [channel_shuffle]
    returns exactly when [groups] is positive and divides [C], and then it
    returns the same shape.  With [groups = 0] it raises
    [ZeroDivisionError]; with a negative [groups], or one that does not
    divide [C], [RuntimeError] (from [reshape]).  A tensor that is not 4-D
    gives [ValueError]. *)
Theorem channel_shuffle_domain (g B C H W : Z) :
  1 <= B -> 1 <= C -> 1 <= H -> 1 <= W ->
  (0 < g -> C mod g = 0 ->
   channel_shuffle (Meta [B; C; H; W]) g = Ok (Meta [B; C; H; W]))
  /\ (0 < g -> C mod g <> 0 ->
      channel_shuffle (Meta [B; C; H; W]) g = Raise RuntimeError)
  /\ (g < 0 -> channel_shuffle (Meta [B; C; H; W]) g = Raise RuntimeError)
  /\ channel_shuffle (Meta [B; C; H; W]) 0 = Raise ZeroDivisionError
  /\ (returns (channel_shuffle (Meta [B; C; H; W]) g)
      <-> 0 < g /\ C mod g = 0)
  /\ (forall s, List.length s <> 4%nat ->
                channel_shuffle (Meta s) g = Raise ValueError).
Proof.
  intros HB HC HH HW.
  assert (Hok : 0 < g -> C mod g = 0 ->
                channel_shuffle (Meta [B; C; H; W]) g = Ok (Meta [B; C; H; W]))
    by (intros; apply channel_shuffle_meta; lia).
  assert (Hind : 0 < g -> C mod g <> 0 ->
                 channel_shuffle (Meta [B; C; H; W]) g = Raise RuntimeError)
    by (intros; apply channel_shuffle_meta_indivisible; lia).
  assert (Hneg : g < 0 ->
                 channel_shuffle (Meta [B; C; H; W]) g = Raise RuntimeError)
    by apply channel_shuffle_meta_negative.
  split; [exact Hok|]. split; [exact Hind|]. split; [exact Hneg|].
  split; [reflexivity|]. split.
  - split.
    + intros Hr.
      destruct (Z.lt_trichotomy g 0) as [Hg|[->|Hg]].
      * rewrite Hneg in Hr by assumption. destruct Hr.
      * destruct Hr.
      * split; [assumption|].
        destruct (Z.eq_dec (C mod g) 0) as [E|E]; [assumption|].
        rewrite Hind in Hr by assumption. destruct Hr.
    + intros [Hg Hm]. rewrite Hok by assumption. exact I.
  - intros s Hs. unfold channel_shuffle. cbn [shape meta_TensorLike dims].
    destruct s as [|a [|b [|c [|d [|e s]]]]]; try reflexivity.
    now contradiction Hs.
Qed.

Lemma channel_shuffle_domain_witness :
  channel_shuffle (Meta [2; 6; 4; 4]) 3 = Ok (Meta [2; 6; 4; 4])
  /\ channel_shuffle (Meta [2; 6; 4; 4]) 4 = Raise RuntimeError.
Proof.
  pose proof (channel_shuffle_domain 3 2 6 4 4
                ltac:(lia) ltac:(lia) ltac:(lia) ltac:(lia)) as (Hok & _).
  pose proof (channel_shuffle_domain 4 2 6 4 4
                ltac:(lia) ltac:(lia) ltac:(lia) ltac:(lia))
    as (_ & Hbad & _).
  split; [apply Hok; [lia|reflexivity]|apply Hbad; [lia|discriminate]].
Defined.

Lemma meta_chunk_odd (B C H W : Z) :
  3 <= C -> C mod 2 <> 0 ->
  chunk (Meta [B; C; H; W]) 2 1
  = Ok [Meta [B; C / 2 + 1; H; W]; Meta [B; C / 2; H; W]].
Proof.
  intros HC Hm.
  assert (Hr : C mod 2 = 1) by (pose proof (Z.mod_pos_bound C 2); lia).
  assert (HC2 : C = 2 * (C / 2) + 1)
    by (pose proof (Z.div_mod C 2); lia).
  assert (Hh : 1 <= C / 2) by lia.
  cbn [chunk meta_TorchOps]. unfold meta_chunk. cbn [dims nth_error].
  change (check (0 <? 2) RuntimeError) with (Ok tt). cbn [bind].
  assert (Hs : (C + 2 - 1) / 2 = C / 2 + 1).
  { symmetry. apply (Z.div_unique _ _ _ 0); lia. }
  rewrite Hs.
  replace (C / 2 + 1 =? 0) with false by (symmetry; apply Z.eqb_neq; lia).
  assert (Hn : (C + (C / 2 + 1) - 1) / (C / 2 + 1) = 2).
  { symmetry. apply (Z.div_unique _ _ _ (C / 2 - 1)); lia. }
  rewrite Hn. change (Z.to_nat (Z.max 2 1 - 1)) with 1%nat.
  cbn [repeat app map update]. change (Z.max 2 1) with 2.
  replace (C / 2 + 1 - ((C / 2 + 1) * 2 - C)) with (C / 2) by lia.
  reflexivity.
Qed.

(** X10.  A stride-1 unit of odd width [C >= 3] raises a [RuntimeError] on
    every input with [C] channels and more than one value per channel:
    [chunk] gives [C // 2 + 1] and [C // 2] channels, the right branch keeps
    its [C // 2], and the shuffle cannot view the [C] concatenated channels
    as two groups. *)
Theorem stride1_unit_rejects_odd_input (C B H W : Z) :
  3 <= C -> C mod 2 <> 0 -> 1 <= B -> 1 <= H -> 1 <= W -> B * H * W <> 1 ->
  chunk (Meta [B; C; H; W]) 2 1
  = Ok [Meta [B; C / 2 + 1; H; W]; Meta [B; C / 2; H; W]]
  /\ run (InvertedResidualBlock_init C C 1) (Meta [B; C; H; W])
     = Raise RuntimeError.
Proof.
  intros HC Hm HB HH HW Hv. split; [now apply meta_chunk_odd|].
  assert (Hh : 1 <= C / 2) by (apply Z.div_le_lower_bound; lia).
  assert (HC2 : C = 2 * (C / 2) + 1).
  { pose proof (Z.div_mod C 2). pose proof (Z.mod_pos_bound C 2). lia. }
  assert (H1 : window_out H 3 1 1 = H)
    by (unfold window_out; rewrite Z.div_1_r; lia).
  assert (W1 : window_out W 3 1 1 = W)
    by (unfold window_out; rewrite Z.div_1_r; lia).
  unfold run. rewrite split_unit_ok by lia. cbn [bind].
  unfold Spec.SplitUnit. rewrite forward_split.
  rewrite meta_chunk_odd by assumption. cbn [bind]. seq_step.
  rewrite forward_ConvBlock_meta
    by first [lia | now rewrite !window_out_pointwise].
  cbn [bind]. rewrite !window_out_pointwise. seq_step.
  rewrite forward_DepthwiseSeparableBlock_meta
    by first [lia | now rewrite H1, W1].
  seq_step. rewrite H1, W1.
  rewrite meta_cat_channels. cbn [bind].
  replace (C / 2 + 1 + C / 2) with C by lia.
  apply channel_shuffle_meta_indivisible; lia.
Qed.

Lemma stride1_unit_rejects_odd_input_witness :
  run (InvertedResidualBlock_init 5 5 1) (Meta [2; 5; 56; 56])
  = Raise RuntimeError.
Proof.
  apply (stride1_unit_rejects_odd_input 5 2 56 56); try lia; discriminate.
Defined.

(** * The shuffle on entries *)

Lemma unravel4 (B C H W k : Z) :
  Forall (fun d => 0 <= d) [B; C; H; W] -> 0 <= k < numel [B; C; H; W] ->
  exists b c h w,
    unravel [B; C; H; W] k = [b; c; h; w]
    /\ in_bounds [B; C; H; W] [b; c; h; w]
    /\ ravel [B; C; H; W] [b; c; h; w] = k.
Proof.
  intros Hnn Hk.
  pose proof (unravel_bounds _ _ Hnn Hk) as Hb.
  pose proof (ravel_unravel _ _ Hnn Hk) as Hr.
  cbn [unravel] in *.
  do 4 eexists. split; [reflexivity|]. split; assumption.
Qed.

Section ShuffleEntries.
Context {A : Type}.
Implicit Types x y : tensor A.

(** X12.  The shuffle moves entries and does nothing else: the entries of
    the output are a permutation of the entries of the input. *)
Theorem channel_shuffle_permutes_entries x (B C H W g : Z) :
  t_shape x = [B; C; H; W] -> well_formed x = true ->
  0 < g -> C mod g = 0 ->
  exists y,
    channel_shuffle x g = Ok y /\ Permutation (t_data x) (t_data y).
Proof.
  intros Hs Hwf Hg Hm.
  destruct (channel_shuffle_dense x B C H W g Hs Hwf Hg Hm)
    as (y & Hy & Hys & Hywf & Hget).
  exists y. split; [exact Hy|].
  pose proof Hwf as [Hnn Hlx]%well_formed_iff.
  pose proof Hywf as [_ Hly]%well_formed_iff.
  rewrite Hs in Hnn, Hlx. rewrite Hys in Hly.
  destruct (t_data x) as [|d xs] eqn:Hxd.
  { cbn [List.length] in Hlx. rewrite <- Hlx in Hly.
    destruct (t_data y); [constructor|discriminate]. }
  rewrite <- Hxd in *. clear xs Hxd.
  set (N := List.length (t_data x)) in *.
  set (f := fun p : nat =>
              match unravel [B; C; H; W] (Z.of_nat p) with
              | [b; c; h; w] =>
                  Z.to_nat (ravel [B; C; H; W] [b; shuffle_source C g c; h; w])
              | _ => p
              end).
  assert (Hf : forall p, (p < N)%nat ->
             exists b c h w,
               in_bounds [B; C; H; W] [b; c; h; w]
               /\ ravel [B; C; H; W] [b; c; h; w] = Z.of_nat p
               /\ in_bounds [B; C; H; W] [b; shuffle_source C g c; h; w]
               /\ f p = Z.to_nat
                          (ravel [B; C; H; W] [b; shuffle_source C g c; h; w])).
  { intros p Hp. destruct (unravel4 B C H W (Z.of_nat p) Hnn ltac:(lia))
      as (b & c & h & w & Hu & Hb & Hr).
    exists b, c, h, w. split; [exact Hb|]. split; [exact Hr|].
    split; [|unfold f; now rewrite Hu].
    apply in_bounds4 in Hb. apply in_bounds4.
    pose proof (shuffle_source_bound C g c Hg Hm). lia. }
  apply (Permutation_nth _ _ d). cbv zeta. fold N.
  split; [lia|]. exists f. split; [|split].
  - intros p Hp. destruct (Hf p Hp) as (b & c & h & w & _ & _ & Hb' & ->).
    apply ravel_bound in Hb'. lia.
  - intros p q Hp Hq Hpq.
    destruct (Hf p Hp) as (b & c & h & w & Hb & Hr & Hb' & Hfp).
    destruct (Hf q Hq) as (b2 & c2 & h2 & w2 & Hb2 & Hr2 & Hb2' & Hfq).
    rewrite Hfp, Hfq in Hpq.
    pose proof (ravel_bound _ _ Hb'). pose proof (ravel_bound _ _ Hb2').
    apply Z2Nat.inj in Hpq; [|lia|lia].
    apply (f_equal (unravel [B; C; H; W])) in Hpq.
    rewrite !unravel_ravel in Hpq by assumption.
    injection Hpq as -> Hc -> ->.
    apply (f_equal (shuffle_source C (C / g))) in Hc.
    apply in_bounds4 in Hb, Hb2.
    rewrite !shuffle_source_inverse in Hc by lia. subst c2. lia.
  - intros p Hp.
    destruct (Hf p Hp) as (b & c & h & w & Hb & Hr & Hb' & Hfp).
    specialize (Hget b c h w Hb). unfold get in Hget.
    rewrite Hys, Hs, Hr, Nat2Z.id, <- Hfp in Hget.
    rewrite (nth_error_nth' (t_data y) d) in Hget by lia.
    rewrite (nth_error_nth' (t_data x) d) in Hget.
    + now injection Hget.
    + rewrite Hfp. apply ravel_bound in Hb'. lia.
Qed.

End ShuffleEntries.

Lemma channel_shuffle_permutes_entries_witness :
  exists y,
    channel_shuffle (Tensor [2; 6; 1; 2] (zrange 24)) 3 = Ok y
    /\ Permutation (zrange 24) (t_data y).
Proof.
  apply (channel_shuffle_permutes_entries
           (Tensor [2; 6; 1; 2] (zrange 24)) 2 6 1 2 3); reflexivity.
Defined.

Lemma shuffle_source_one (C c : Z) : shuffle_source C 1 c = c.
Proof.
  unfold shuffle_source. rewrite Z.mod_1_r, !Z.div_1_r. lia.
Qed.

Lemma shuffle_source_all (C c : Z) : 0 <= c < C -> shuffle_source C C c = c.
Proof.
  intros Hc. unfold shuffle_source.
  rewrite Z.mod_small, Z.div_same, Z.div_small by lia. lia.
Qed.

Lemma in_bounds4_inv (B C H W : Z) (idx : list Z) :
  in_bounds [B; C; H; W] idx ->
  exists b c h w, idx = [b; c; h; w].
Proof.
  unfold in_bounds. intros Hb.
  inversion Hb as [|? b ? idx1 ? Hb1]; subst.
  inversion Hb1 as [|? c ? idx2 ? Hb2]; subst.
  inversion Hb2 as [|? h ? idx3 ? Hb3]; subst.
  inversion Hb3 as [|? w ? idx4 ? Hb4]; subst.
  inversion Hb4; subst. now exists b, c, h, w.
Qed.

Section ShuffleLaws.
Context {A : Type}.
Implicit Types x y : tensor A.

(** X13.  With one group, or with as many groups as channels, the shuffle
    returns the tensor it was given. *)
Theorem channel_shuffle_trivial_groups x (B C H W : Z) :
  t_shape x = [B; C; H; W] -> well_formed x = true ->
  channel_shuffle x 1 = Ok x
  /\ (0 < C -> channel_shuffle x C = Ok x).
Proof.
  intros Hs Hwf.
  assert (Hid : forall g, 0 < g -> C mod g = 0 ->
                  (forall c, 0 <= c < C -> shuffle_source C g c = c) ->
                  channel_shuffle x g = Ok x).
  { intros g Hg Hm Hsrc.
    destruct (channel_shuffle_dense x B C H W g Hs Hwf Hg Hm)
      as (y & Hy & Hys & Hywf & Hget).
    rewrite Hy. f_equal. apply tensor_ext; try assumption; [congruence|].
    rewrite Hys. intros idx Hidx.
    destruct (in_bounds4_inv _ _ _ _ _ Hidx) as (b & c & h & w & ->).
    rewrite Hget by assumption. apply in_bounds4 in Hidx.
    now rewrite Hsrc by lia. }
  split.
  - apply Hid; [lia|apply Z.mod_1_r|]. intros. apply shuffle_source_one.
  - intros HC. apply Hid; [lia|apply Z.mod_same; lia|].
    apply shuffle_source_all.
Qed.

(** X14.  Two groups interleave the halves: on [2 * m] channels, output
    channel [2 * j] is channel [j] of the first half and output channel
    [2 * j + 1] is channel [j] of the second half (input channel [m + j]).
    After [torch.cat([left, right])] the channels of the two branches
    alternate. *)
Theorem channel_shuffle_interleaves_halves x (B m H W : Z) :
  t_shape x = [B; 2 * m; H; W] -> well_formed x = true ->
  exists y,
    channel_shuffle x 2 = Ok y
    /\ forall b j h w,
         0 <= b < B -> 0 <= j < m -> 0 <= h < H -> 0 <= w < W ->
         get y [b; 2 * j; h; w] = get x [b; j; h; w]
         /\ get y [b; 2 * j + 1; h; w] = get x [b; m + j; h; w].
Proof.
  intros Hs Hwf.
  assert (Hm : (2 * m) mod 2 = 0) by (rewrite Z.mul_comm; apply Z.mod_mul; lia).
  destruct (channel_shuffle_dense x B (2 * m) H W 2 Hs Hwf ltac:(lia) Hm)
    as (y & Hy & _ & _ & Hget).
  exists y. split; [exact Hy|].
  intros b j h w Hb Hj Hh Hw.
  assert (Hhalf : 2 * m / 2 = m) by (rewrite Z.mul_comm; apply Z.div_mul; lia).
  split.
  - rewrite Hget by (apply in_bounds4; lia). do 3 f_equal.
    unfold shuffle_source. rewrite Hhalf.
    rewrite (Z.mul_comm 2 j), Z.mod_mul, Z.div_mul by lia. lia.
  - rewrite Hget by (apply in_bounds4; lia). do 3 f_equal.
    unfold shuffle_source. rewrite Hhalf.
    rewrite (Z.mul_comm 2 j), (Z.add_comm (j * 2) 1).
    rewrite Z.mod_add, Z.div_add by lia.
    change (1 mod 2) with 1. change (1 / 2) with 0. lia.
Qed.

(** X15.  For every channel count [C >= 1] and every [g] dividing it, the
    shuffle with [C / g] groups followed by the shuffle with [g] groups
    gives the tensor back: each shuffle is a bijection on the channels, with
    the shuffle of the complementary group count as its inverse. *)
Theorem channel_shuffle_round_trip x (B C H W g : Z) :
  t_shape x = [B; C; H; W] -> well_formed x = true ->
  0 < g -> 0 < C -> C mod g = 0 ->
  (y <- channel_shuffle x (C / g) ;; channel_shuffle y g) = Ok x
  /\ (y <- channel_shuffle x g ;; channel_shuffle y (C / g)) = Ok x.
Proof.
  intros Hs Hwf Hg HC Hm.
  assert (HCg : C = g * (C / g)) by (apply Z.div_exact; lia).
  assert (Hn : 0 < C / g) by nia.
  split; [now apply (channel_shuffle_inverse x B C H W g)|].
  assert (Hgn : C / (C / g) = g).
  { symmetry. apply (Z.div_unique _ _ _ 0); lia. }
  rewrite <- Hgn at 1.
  apply (channel_shuffle_inverse x B C H W (C / g)); try assumption.
  rewrite HCg at 1. apply Z.mod_mul. lia.
Qed.

End ShuffleLaws.

Lemma channel_shuffle_trivial_groups_witness :
  channel_shuffle (Tensor [2; 6; 1; 2] (zrange 24)) 1
  = Ok (Tensor [2; 6; 1; 2] (zrange 24))
  /\ channel_shuffle (Tensor [2; 6; 1; 2] (zrange 24)) 6
     = Ok (Tensor [2; 6; 1; 2] (zrange 24)).
Proof.
  pose proof (channel_shuffle_trivial_groups
                (Tensor [2; 6; 1; 2] (zrange 24)) 2 6 1 2 eq_refl eq_refl)
    as [H1 H6].
  split; [exact H1|apply H6; lia].
Defined.

Lemma channel_shuffle_interleaves_halves_witness :
  exists y,
    channel_shuffle (Tensor [2; 6; 1; 2] (zrange 24)) 2 = Ok y
    /\ get y [1; 2 * 1 + 1; 0; 1]
       = get (Tensor [2; 6; 1; 2] (zrange 24)) [1; 3 + 1; 0; 1].
Proof.
  destruct (channel_shuffle_interleaves_halves
              (Tensor [2; 6; 1; 2] (zrange 24)) 2 3 1 2 eq_refl eq_refl)
    as (y & Hy & Hget).
  exists y. split; [exact Hy|].
  apply (Hget 1 1 0 1); lia.
Defined.

Lemma channel_shuffle_round_trip_witness :
  (y <- channel_shuffle (Tensor [1; 12; 2; 1] (zrange 24)) (12 / 4) ;;
   channel_shuffle y 4)
  = Ok (Tensor [1; 12; 2; 1] (zrange 24)).
Proof.
  apply (channel_shuffle_round_trip
           (Tensor [1; 12; 2; 1] (zrange 24)) 1 12 2 1 4);
    first [lia | reflexivity].
Defined.

(** X16.  [make_layer] with stride 2 returns exactly when [in_channels] is
    at least 1 and [out_channels] at least 2, whatever the depth. *)
Theorem make_layer_construction_domain (Cin Cout d : Z) :
  (returns (make_layer Cin Cout d 2) <-> 0 < Cin /\ 2 <= Cout)
  /\ (raises (make_layer Cin Cout d 2) <-> Cin <= 0 \/ Cout <= 1).
Proof.
  assert (Hret : 0 < Cin /\ 2 <= Cout -> returns (make_layer Cin Cout d 2)).
  { intros [Hi Ho]. rewrite make_layer_ok by assumption. exact I. }
  assert (Hrai : Cin <= 0 \/ Cout <= 1 -> raises (make_layer Cin Cout d 2))
    by apply make_layer_raises.
  split; split; trivial.
  - intros Hr. apply returns_not_raises in Hr.
    destruct (Z.le_gt_cases Cin 0); [exfalso; apply Hr, Hrai; lia|].
    destruct (Z.le_gt_cases Cout 1); [exfalso; apply Hr, Hrai; lia|]. lia.
  - intros Hr.
    destruct (Z.le_gt_cases Cin 0); [now left|].
    destruct (Z.le_gt_cases Cout 1); [now right|].
    exfalso. assert (Hok : returns (make_layer Cin Cout d 2))
      by (apply Hret; lia).
    apply returns_not_raises in Hok. contradiction.
Qed.
